(** * AndroidFileio: the Android file layer of the platform

    A shallow embedding of [engine/source/platformAndroid/AndroidFileio.cpp]:
    the [File] handle class (open, close, read, write, seek), the path
    queries of [Platform], [Platform::createPath] and the two directory
    walkers.  The C library and the kernel are not part of the program; they
    appear as interfaces (records of calls over an abstract world), and a
    small reference implementation of each interface is given to run the
    code on concrete inputs. *)

From Stdlib Require Import ZArith List String Ascii Bool Lia.
Import ListNotations.
Local Open Scope Z_scope.

(** ** Machine integers *)

(** [U32] and [S32] values are kept in [Z]; a conversion to [U32] is the
    residue modulo [2^32], a conversion to [S32] its two's complement
    reading. *)
Definition U32 (z : Z) : Z := z mod 2 ^ 32.
Definition S32 (z : Z) : Z := (z + 2 ^ 31) mod 2 ^ 32 - 2 ^ 31.

Arguments U32 z : simpl never.
Arguments S32 z : simpl never.

(** ** Constants of the headers *)

(** [<errno.h>] of Linux and Android. *)
Definition ENOENT : Z := 2.
Definition EBADF : Z := 9.
Definition EACCES : Z := 13.
Definition EEXIST : Z := 17.
Definition EINVAL : Z := 22.
Definition ENAMETOOLONG : Z := 36.

(** Modelled from the spec: the [Status] enumeration of [File], declared in
    [platform/platformFileIO.h]; the values this file uses. *)
Inductive Status : Type := Ok | IOError | EOS | Closed | UnknownError.

(** Modelled from the spec: the access modes of [File::open], declared in
    [platform/platformFileIO.h]. *)
Inductive AccessMode : Type := Read | Write | ReadWrite | WriteAppend.

(** Modelled from the spec: the capability bit mask (Read, Write) of
    [platform/platformFileIO.h]. *)
Definition FileRead : Z := 1.
Definition FileWrite : Z := 2.

Definition Status_eqb (a b : Status) : bool :=
  match a, b with
  | Ok, Ok | IOError, IOError | EOS, EOS | Closed, Closed
  | UnknownError, UnknownError => true
  | _, _ => false
  end.

Definition isError (s : Status) : bool :=
  match s with IOError | UnknownError => true | _ => false end.

(** ** The C stream library *)

Inductive Whence : Type := SEEK_SET | SEEK_CUR.

(** The [<stdio.h>] calls of the file, over a world [W] that holds the
    streams, the disk and [errno]; [FILE] is the type of stream pointers and
    [fopen] gives [None] for [NULL]. *)
Record Stdio (W FILE : Type) : Type := mkStdio {
  errno : W -> Z;
  fopen : string -> string -> W -> option FILE * W;
  fclose : FILE -> W -> Z * W;
  fseek : FILE -> Z -> Whence -> W -> Z * W;
  ftell : FILE -> W -> Z * W;
  (** [fstat(fileno(h), &statData)]: [None] when it does not return 0, else
      [st_size]. *)
  fstat_size : FILE -> W -> option Z * W;
  (** [fread(dst, 1, size, h)]: the bytes stored at the start of [dst]; the
      item count it returns is their number. *)
  fread : FILE -> Z -> W -> list Byte.byte * W;
  (** [fwrite(src, 1, size, h)]: the item count it returns. *)
  fwrite : FILE -> Z -> list Byte.byte -> W -> Z * W
}.

Arguments errno {W FILE}.
Arguments fopen {W FILE}.
Arguments fclose {W FILE}.
Arguments fseek {W FILE}.
Arguments ftell {W FILE}.
Arguments fstat_size {W FILE}.
Arguments fread {W FILE}.
Arguments fwrite {W FILE}.

(** ** The File object *)

Record File (FILE : Type) : Type := mkFile {
  currentStatus : Status;
  capability : Z;
  handle : option FILE
}.

Arguments mkFile {FILE}.
Arguments currentStatus {FILE}.
Arguments capability {FILE}.
Arguments handle {FILE}.

(** [File::File()]. *)
Definition File_new {FILE : Type} : File FILE := mkFile Closed 0 None.

(** A method either stops at a fatal assertion or returns a value with the
    object and the world it leaves behind. *)
Inductive outcome (A : Type) : Type :=
| Fatal (msg : string)
| Ret (a : A).

Arguments Fatal {A}.
Arguments Ret {A}.

Definition M (W FILE A : Type) : Type :=
  File FILE -> W -> outcome (A * File FILE * W).

Section Monad.
Context {W FILE : Type}.

Definition ret {A} (a : A) : M W FILE A := fun f w => Ret (a, f, w).

Definition bind {A B} (m : M W FILE A) (k : A -> M W FILE B) : M W FILE B :=
  fun f w =>
    match m f w with
    | Fatal msg => Fatal msg
    | Ret (a, f', w') => k a f' w'
    end.

(** [AssertFatal(c, msg)], with assertions compiled in. *)
Definition AssertFatal (c : bool) (msg : string) : M W FILE unit :=
  fun f w => if c then Ret (tt, f, w) else Fatal msg.

(** A library call. *)
Definition call {A} (c : W -> A * W) : M W FILE A :=
  fun f w => let (a, w') := c w in Ret (a, f, w').

Definition this : M W FILE (File FILE) := fun f w => Ret (f, f, w).
Definition world : M W FILE W := fun f w => Ret (w, f, w).

Definition set_currentStatus (s : Status) : M W FILE unit :=
  fun f w => Ret (tt, mkFile s (capability f) (handle f), w).
Definition set_capability (c : Z) : M W FILE unit :=
  fun f w => Ret (tt, mkFile (currentStatus f) c (handle f), w).
Definition set_handle (h : option FILE) : M W FILE unit :=
  fun f w => Ret (tt, mkFile (currentStatus f) (capability f) h, w).
End Monad.

Declare Scope file_scope.
Delimit Scope file_scope with file.
Notation "x <- m ;; k" := (bind m (fun x => k))
  (at level 100, m at next level, right associativity) : file_scope.
Notation "m ;;; k" := (bind m (fun _ => k))
  (at level 100, right associativity) : file_scope.

Definition is_some {A} (o : option A) : bool :=
  match o with Some _ => true | None => false end.

(** ** The methods of File *)

Section FileClass.
Context {W FILE : Type} (os : Stdio W FILE).
Local Open Scope string_scope.
Local Open Scope Z_scope.
Local Open Scope file_scope.

(** [AssertFatal(handle != NULL, msg)], giving the stream for what follows. *)
Definition assert_handle (msg : string) : M W FILE FILE :=
  fun f w =>
    match handle f with
    | Some fp => Ret (fp, f, w)
    | None => Fatal msg
    end.

(** [File::hasCapability]. *)
Definition hasCapability (cap : Z) (f : File FILE) : bool :=
  negb (0 =? Z.land (U32 cap) (capability f)).

(** [File::getStatus]. *)
Definition getStatus : M W FILE Status :=
  f <- this ;; ret (currentStatus f).

(** [File::setStatus()]: the switch on [errno]; every case but [EACCES]
    falls through to the default. *)
Definition setStatus : M W FILE Status :=
  w <- world ;;
  let e := errno os w in
  (if e =? EACCES then set_currentStatus IOError
   else if (e =? EBADF) || (e =? EINVAL) || (e =? ENOENT)
           || (e =? ENAMETOOLONG)
        then set_currentStatus UnknownError
        else set_currentStatus UnknownError) ;;;
  getStatus.

(** [File::close]. *)
Definition close : M W FILE Status :=
  f <- this ;;
  if Status_eqb Closed (currentStatus f) then ret (currentStatus f)
  else
    match handle f with
    | Some fp =>
        r <- call (fclose os fp) ;;
        if negb (r =? 0) then setStatus
        else (set_handle None ;;; set_currentStatus Closed ;;; ret Closed)
    | None => set_handle None ;;; set_currentStatus Closed ;;; ret Closed
    end.

(** [File::~File]. *)
Definition File_destroy : M W FILE unit :=
  close ;;; set_handle None.

(** [File::getPosition]. *)
Definition getPosition : M W FILE Z :=
  f <- this ;;
  AssertFatal (negb (Status_eqb (currentStatus f) Closed))
    "File::getPosition: file closed" ;;;
  fp <- assert_handle "File::getPosition: invalid file handle" ;;
  p <- call (ftell os fp) ;;
  ret (U32 p).

(** [File::getSize]; its [AssertWarn] only prints. *)
Definition getSize : M W FILE Z :=
  f <- this ;;
  fp <- assert_handle "File::getSize: invalid file handle" ;;
  if Status_eqb Ok (currentStatus f) || Status_eqb EOS (currentStatus f)
  then
    r <- call (fstat_size os fp) ;;
    match r with
    | None => ret 0
    | Some st_size => ret (U32 st_size)
    end
  else ret 0.

(** [File::setPosition]; [position] is an [S32].  In the relative branch
    the asserted sum is computed in [U32], as C++ does for [U32 + S32]. *)
Definition setPosition (position : Z) (absolutePos : bool) : M W FILE Status :=
  f <- this ;;
  AssertFatal (negb (Status_eqb Closed (currentStatus f)))
    "File::setPosition: file closed" ;;;
  fp <- assert_handle "File::setPosition: invalid file handle" ;;
  if negb (Status_eqb (currentStatus f) Ok)
     && negb (Status_eqb (currentStatus f) EOS)
  then ret (currentStatus f)
  else
    finalPos <-
      (if absolutePos then
         AssertFatal (0 <=? position)
           "File::setPosition: negative absolute position" ;;;
         _ <- call (fseek os fp position SEEK_SET) ;;
         p <- call (ftell os fp) ;;
         ret (U32 p)
       else
         cur <- getPosition ;;
         AssertFatal (0 <=? U32 (cur + position))
           "File::setPosition: negative relative position" ;;;
         _ <- call (fseek os fp position SEEK_CUR) ;;
         p <- call (ftell os fp) ;;
         ret (U32 p)) ;;
    if 4294967295 =? finalPos then setStatus
    else
      sz <- getSize ;;
      if sz <=? finalPos
      then (set_currentStatus EOS ;;; ret EOS)
      else (set_currentStatus Ok ;;; ret Ok).

Definition fopen_mode (openMode : AccessMode) : string :=
  match openMode with
  | Read => "rb"
  | Write => "wb"
  | ReadWrite => "ab+"
  | WriteAppend => "ab"
  end.

Definition open_capability (openMode : AccessMode) : Z :=
  match openMode with
  | Read => FileRead
  | Write | WriteAppend => FileWrite
  | ReadWrite => Z.lor FileRead FileWrite
  end.

(** [File::open].  The length warning only prints; [setPosition(0)] takes
    the default [absolutePos = true] of the declaration. *)
Definition open (filename : string) (openMode : AccessMode) : M W FILE Status :=
  f <- this ;;
  (if negb (Status_eqb (currentStatus f) Closed)
   then (_ <- close ;; ret tt)
   else ret tt) ;;;
  h <- call (fopen os filename (fopen_mode openMode)) ;;
  set_handle h ;;;
  match h with
  | None => setStatus
  | Some _ =>
      set_capability (open_capability openMode) ;;;
      set_currentStatus Ok ;;;
      (match openMode with
       | ReadWrite => (_ <- setPosition 0 true ;; ret tt)
       | _ => ret tt
       end) ;;;
      getStatus
  end.

(** What a buffer holds after [data] was stored at its start. *)
Definition store (data buf : list Byte.byte) : list Byte.byte :=
  (data ++ skipn (List.length data) buf)%list.

(** [File::read].  [dst] is the destination buffer ([None] for [NULL])
    and [bytesRead] the cell behind the pointer ([None] for [NULL]); both
    are returned as the call leaves them.  [AssertWarn] only prints. *)
Definition read (size : Z) (dst : option (list Byte.byte))
    (bytesRead : option Z)
  : M W FILE (Status * option (list Byte.byte) * option Z) :=
  f <- this ;;
  AssertFatal (negb (Status_eqb Closed (currentStatus f)))
    "File::read: file closed" ;;;
  fp <- assert_handle "File::read: invalid file handle" ;;
  AssertFatal (is_some dst) "File::read: NULL destination pointer" ;;;
  AssertFatal (hasCapability FileRead f)
    "File::read: file lacks capability" ;;;
  if negb (Status_eqb Ok (currentStatus f)) || (0 =? size)
  then ret (currentStatus f, dst, bytesRead)
  else
    data <- call (fread os fp size) ;;
    let nBytes := U32 (Z.of_nat (List.length data)) in
    (if negb (nBytes =? size) then set_currentStatus EOS else ret tt) ;;;
    s <- getStatus ;;
    ret (s, option_map (store data) dst,
         match bytesRead with Some _ => Some nBytes | None => None end).

(** [File::write].  [src] is the source buffer ([None] for [NULL]) and
    [bytesWritten] the cell behind the pointer. *)
Definition write (size : Z) (src : option (list Byte.byte))
    (bytesWritten : option Z) : M W FILE (Status * option Z) :=
  f <- this ;;
  AssertFatal (negb (Status_eqb Closed (currentStatus f)))
    "File::write: file closed" ;;;
  fp <- assert_handle "File::write: invalid file handle" ;;
  AssertFatal (is_some src) "File::write: NULL source pointer" ;;;
  AssertFatal (hasCapability FileWrite f)
    "File::write: file lacks capability" ;;;
  if (negb (Status_eqb Ok (currentStatus f))
      && negb (Status_eqb EOS (currentStatus f))) || (0 =? size)
  then ret (currentStatus f, bytesWritten)
  else
    n <- call (fwrite os fp size (match src with Some b => b | None => [] end)) ;;
    let nBytes := U32 n in
    (if negb (nBytes =? size) then (_ <- setStatus ;; ret tt) else ret tt) ;;;
    s <- getStatus ;;
    ret (s, match bytesWritten with Some _ => Some nBytes | None => None end).
End FileClass.

(** ** A reference stream library

    One named file on a disk and one stream at a time, enough to run the
    methods: the file may be absent or unreadable, and the medium may fail
    ([fault]), in which case [fclose], [ftell] and [fwrite] report an
    error.  [fclose] releases the stream whether it succeeds or fails.
    A call on a released stream has no defined behaviour in C: the
    reference marks the world [Misused] from then on, and what it answers
    there stands for nothing. *)

Module RefStdio.
Local Open Scope string_scope.
Local Open Scope Z_scope.

Definition EIO : Z := 5.

Inductive stream_state : Type := Live | Released | Misused.

Record world : Type := mkState {
  name : string;
  data : option (list Byte.byte);
  denied : bool;
  cursor : Z;
  appending : bool;
  eno : Z;
  fault : bool;
  stream : stream_state
}.

(** A world whose stream is live. *)
Definition mkWorld (n : string) (d : option (list Byte.byte)) (den : bool)
    (c : Z) (a : bool) (e : Z) (f : bool) : world :=
  mkState n d den c a e f Live.

Definition with_eno (e : Z) (w : world) : world :=
  mkState (name w) (data w) (denied w) (cursor w) (appending w) e (fault w)
    (stream w).

Definition with_cursor (c : Z) (w : world) : world :=
  mkState (name w) (data w) (denied w) c (appending w) (eno w) (fault w)
    (stream w).

Definition with_stream (s : stream_state) (w : world) : world :=
  mkState (name w) (data w) (denied w) (cursor w) (appending w) (eno w)
    (fault w) s.

(** A call on the stream: it runs on a live stream only. *)
Definition on_stream {A : Type} (w : world) (answer : A) (run : A * world)
  : A * world :=
  match stream w with
  | Live => run
  | _ => (answer, with_stream Misused w)
  end.

Definition contents (w : world) : list Byte.byte :=
  match data w with Some b => b | None => [] end.

Definition size (w : world) : Z := Z.of_nat (List.length (contents w)).

(** The stream a successful [fopen] hands out is live, in a world that
    was not misused before. *)
Definition fresh_stream (w w' : world) : world :=
  match stream w with
  | Misused => with_stream Misused w'
  | _ => w'
  end.

Definition ref_fopen (n mode : string) (w : world) : option unit * world :=
  if negb (String.eqb n (name w)) then (None, with_eno ENOENT w)
  else if denied w then (None, with_eno EACCES w)
  else if String.eqb mode "rb" then
    match data w with
    | None => (None, with_eno ENOENT w)
    | Some b =>
        (Some tt,
         fresh_stream w
           (mkWorld (name w) (Some b) false 0 false (eno w) (fault w)))
    end
  else if String.eqb mode "wb" then
    (Some tt,
     fresh_stream w
       (mkWorld (name w) (Some []) false 0 false (eno w) (fault w)))
  else
    (Some tt,
     fresh_stream w
       (mkWorld (name w) (Some (contents w)) false (size w) true (eno w)
          (fault w))).

Definition ref_fclose (_ : unit) (w : world) : Z * world :=
  on_stream w (-1)
    (if fault w then (-1, with_stream Released (with_eno EIO w))
     else (0, with_stream Released w)).

Definition ref_fseek (_ : unit) (off : Z) (whence : Whence) (w : world)
  : Z * world :=
  let target :=
    match whence with
    | SEEK_SET => off
    | SEEK_CUR => cursor w + off
    end in
  on_stream w (-1)
    (if target <? 0 then (-1, with_eno EINVAL w)
     else (0, with_cursor target w)).

Definition ref_ftell (_ : unit) (w : world) : Z * world :=
  on_stream w (-1)
    (if fault w then (-1, with_eno EBADF w) else (cursor w, w)).

Definition ref_fstat_size (_ : unit) (w : world) : option Z * world :=
  on_stream w None (Some (size w), w).

Definition ref_fread (_ : unit) (n : Z) (w : world)
  : list Byte.byte * world :=
  let got := firstn (Z.to_nat n) (skipn (Z.to_nat (cursor w)) (contents w)) in
  on_stream w [] (got, with_cursor (cursor w + Z.of_nat (List.length got)) w).

Definition ref_fwrite (_ : unit) (n : Z) (src : list Byte.byte) (w : world)
  : Z * world :=
  on_stream w 0
    (if fault w then (0, with_eno EIO w)
     else
       let put := firstn (Z.to_nat n) src in
       let old := contents w in
       let at_ :=
         if appending w then List.length old else Z.to_nat (cursor w) in
       let new :=
         (firstn at_ old ++ put ++ skipn (at_ + List.length put) old)%list in
       (Z.of_nat (List.length put),
        mkWorld (name w) (Some new) (denied w)
          (Z.of_nat (at_ + List.length put)) (appending w) (eno w) (fault w))).

Definition stdio : Stdio world unit :=
  mkStdio world unit eno ref_fopen ref_fclose ref_fseek ref_ftell
    ref_fstat_size ref_fread ref_fwrite.

(** A disk with the file [n] holding [b], and a stream at its start for
    the object that holds one. *)
Definition disk (n : string) (b : option (list Byte.byte)) : world :=
  mkWorld n b false 0 false 0 false.
End RefStdio.

(** ** Strings

    [dStrlen], [dStrcmp], [dStrrchr] and [dSprintf] are the engine's names
    for [strlen], [strcmp], [strrchr] and [snprintf]; a C string is kept as
    the [string] before its terminator. *)

Definition dStrlen (s : string) : nat := String.length s.

(** [s[dStrlen(s) - 1]], when [s] is not empty. *)
Fixpoint last_char (s : string) : option ascii :=
  match s with
  | EmptyString => None
  | String a EmptyString => Some a
  | String _ rest => last_char rest
  end.

(** [s] after [s[n] = '\0'], for [n] within [s]. *)
Fixpoint truncate (n : nat) (s : string) : string :=
  match n, s with
  | O, _ => EmptyString
  | S _, EmptyString => EmptyString
  | S k, String a rest => String a (truncate k rest)
  end.

(** [dStrrchr(s, c)] as the index of the last [c] in [s], [None] for
    [NULL]. *)
Fixpoint dStrrchr (s : string) (c : ascii) : option nat :=
  match s with
  | EmptyString => None
  | String a rest =>
      match dStrrchr rest c with
      | Some i => Some (S i)
      | None => if Ascii.eqb a c then Some O else None
      end
  end.

Definition slash : ascii := "/"%char.

Definition MAX_MAC_PATH_LONG : Z := 2048.

(** ** The file system calls *)

Record stat_t : Type := mkStat {
  st_mode : Z;
  st_size : Z;
  st_ctime : Z;
  st_mtime : Z
}.

(** [<sys/stat.h>]. *)
Definition S_IFMT : Z := 61440.
Definition S_IFDIR : Z := 16384.
Definition S_IFREG : Z := 32768.

(** The calls on paths, over a world [W] that holds the file system.
    [os_stat] gives [None] when [stat] returns [-1]; [os_utimes p] is
    [utimes(p, NULL)]. *)
Record Posix (W : Type) : Type := mkPosix {
  os_remove : string -> W -> Z * W;
  os_utimes : string -> W -> Z * W;
  os_stat : string -> W -> option stat_t;
  os_mkdir : string -> Z -> W -> Z * W
}.

Arguments os_remove {W}.
Arguments os_utimes {W}.
Arguments os_stat {W}.
Arguments os_mkdir {W}.

(** ** The path queries of Platform

    A [const char *] argument is an [option string], [None] for [NULL].
    Functions that only query the file system return their value; those
    that may change it return the world as well. *)

Section Platform.
Context {W : Type} (px : Posix W).

(** [!path || !*path]. *)
Definition null_or_empty (path : option string) : bool :=
  match path with
  | None => true
  | Some EmptyString => true
  | Some _ => false
  end.

(** [Platform::fileDelete]; the length warning only prints. *)
Definition fileDelete (name : option string) (w : W) : bool * W :=
  match name with
  | None => (false, w)
  | Some n => let (r, w') := os_remove px n w in (r =? 0, w')
  end.

(** [dFileTouch]. *)
Definition dFileTouch (path : option string) (w : W) : bool * W :=
  match path with
  | None => (false, w)
  | Some EmptyString => (false, w)
  | Some p => let (r, w') := os_utimes px p w in (r =? 0, w')
  end.

(** [Platform::getFileTimes]; the two cells are returned as the call leaves
    them. *)
Definition getFileTimes (path : option string)
    (createTime modifyTime : option Z) (w : W)
  : bool * option Z * option Z :=
  match path with
  | None => (false, createTime, modifyTime)
  | Some EmptyString => (false, createTime, modifyTime)
  | Some p =>
      match os_stat px p w with
      | None => (false, createTime, modifyTime)
      | Some statData =>
          (true,
           match createTime with
           | Some _ => Some (st_ctime statData)
           | None => None
           end,
           match modifyTime with
           | Some _ => Some (st_mtime statData)
           | None => None
           end)
      end
  end.

(** [Platform::isFile]. *)
Definition isFile (path : option string) (w : W) : bool :=
  match path with
  | None => false
  | Some EmptyString => false
  | Some p =>
      match os_stat px p w with
      | None => false
      | Some statData => Z.land (st_mode statData) S_IFMT =? S_IFREG
      end
  end.

(** [Platform::isDirectory]. *)
Definition isDirectory (path : option string) (w : W) : bool :=
  match path with
  | None => false
  | Some EmptyString => false
  | Some p =>
      match os_stat px p w with
      | None => false
      | Some statData => Z.land (st_mode statData) S_IFMT =? S_IFDIR
      end
  end.

(** [Platform::getFileSize]. *)
Definition getFileSize (pFilePath : option string) (w : W) : Z :=
  match pFilePath with
  | None => 0
  | Some EmptyString => 0
  | Some p =>
      match os_stat px p w with
      | None => 0
      | Some statData => S32 (st_size statData)
      end
  end.

(** [Platform::isSubDirectory].  [dStrcpyl] is the engine's variadic
    concatenation, declared elsewhere: from a buffer size and the argument
    list it gives the string left in the buffer. *)
Definition isSubDirectory (dStrcpyl : Z -> list (option string) -> string)
    (pathParent pathSub : option string) (w : W) : bool :=
  let fullpath :=
    dStrcpyl MAX_MAC_PATH_LONG [pathParent; Some "/"%string; pathSub; None] in
  isDirectory (Some fullpath) w.
End Platform.

(** [dStrcpyl] as the engine's string library has it: the arguments up to
    the first [NULL] are copied one after the other, as far as
    [dstSize - 1] characters. *)
Fixpoint concat_until_null (args : list (option string)) : string :=
  match args with
  | Some s :: rest => (s ++ concat_until_null rest)%string
  | _ => EmptyString
  end.

Definition ref_dStrcpyl (dstSize : Z) (args : list (option string)) : string :=
  truncate (Z.to_nat (dstSize - 1)) (concat_until_null args).

(** ** Platform::createPath *)

(** What a run gives: a value, or no defined behaviour (a read outside an
    array), or a recursion budget that ran out. *)
Inductive result (A : Type) : Type :=
| Value (a : A)
| Undefined
| OutOfFuel.

Arguments Value {A}.
Arguments Undefined {A}.
Arguments OutOfFuel {A}.

(** [parent[len - 2] == '/'] for a non-empty [file]. *)
Definition has_trailing_slash (file : string) : bool :=
  match last_char file with
  | Some c => Ascii.eqb c slash
  | None => false
  end.

(** The buffer [parent] once the trailing slash was cut off. *)
Definition cut_trailing_slash (file : string) : string :=
  if has_trailing_slash file then truncate (dStrlen file - 1) file else file.

(** The argument of the recursive call: [parent] snipped just after its
    last slash, when it has one that is not its first character. *)
Definition parent_path (file : string) : option string :=
  let parent := cut_trailing_slash file in
  match dStrrchr parent slash with
  | Some (S i) => Some (truncate (S (S i)) parent)
  | _ => None
  end.

Section CreatePath.
Context {W : Type} (px : Posix W).

(** The end of [createPath]: [mkdir(file, 0777)] for a directory path. *)
Definition create_last (file : string) (w : W) : bool * W :=
  if has_trailing_slash file then
    let (r, w') := os_mkdir px file 511 w in
    if negb (r =? 0) then (false, w') else (true, w')
  else (true, w).

(** [Platform::createPath], with a budget for the depth of the recursion.
    For the empty string [len] is 1 and [parent[len - 2]] is read outside
    the array. *)
Fixpoint createPath_fuel (fuel : nat) (file : string) (w : W)
  : result (bool * W) :=
  match fuel with
  | O => OutOfFuel
  | S k =>
      if is_some (os_stat px file w) then Value (true, w)
      else
        match file with
        | EmptyString => Undefined
        | _ =>
            match parent_path file with
            | Some parent =>
                match createPath_fuel k parent w with
                | Value (false, w') => Value (false, w')
                | Value (true, w') => Value (create_last file w')
                | Undefined => Undefined
                | OutOfFuel => OutOfFuel
                end
            | None => Value (create_last file w)
            end
        end
  end.

(** Each call is on a shorter string, so the length of [file] bounds the
    depth. *)
Definition createPath (file : string) (w : W) : result (bool * W) :=
  createPath_fuel (S (dStrlen file)) file w.
End CreatePath.

(** ** A reference file system

    The paths that exist and what each is, a directory or a regular file.
    As the kernel does, a path is looked up with runs of slashes taken for
    one slash and without a trailing slash; the root [/] and the current
    directory always exist.  [mkdir] wants the path absent and its parent
    directory present. *)

Module RefPosix.

Definition world : Type := list (string * bool).

Fixpoint lookup (p : string) (w : world) : option bool :=
  match w with
  | [] => None
  | (q, d) :: rest => if String.eqb p q then Some d else lookup p rest
  end.

(** Runs of slashes made one slash. *)
Fixpoint squeeze (p : string) : string :=
  match p with
  | EmptyString => EmptyString
  | String a rest =>
      match rest with
      | String b _ =>
          if Ascii.eqb a slash && Ascii.eqb b slash then squeeze rest
          else String a (squeeze rest)
      | EmptyString => String a EmptyString
      end
  end.

(** The name under which a path is kept. *)
Definition norm (p : string) : string :=
  let q := squeeze p in
  if String.eqb q "/" then q else cut_trailing_slash q.

(** The directory part of a kept name: what precedes its last slash. *)
Definition dirname (p : string) : string :=
  match dStrrchr p slash with
  | Some (S i) => truncate (S i) p
  | Some O => "/"%string
  | None => EmptyString
  end.

Definition is_dir (p : string) (w : world) : bool :=
  match p with
  | EmptyString => true
  | _ =>
      if String.eqb p "/" then true
      else match lookup p w with Some true => true | _ => false end
  end.

Definition ref_stat (p : string) (w : world) : option stat_t :=
  match p with
  | EmptyString => None
  | _ =>
      if String.eqb (norm p) "/" then Some (mkStat S_IFDIR 0 0 0)
      else
        match lookup (norm p) w with
        | Some true => Some (mkStat S_IFDIR 0 0 0)
        | Some false =>
            if has_trailing_slash p then None
            else Some (mkStat S_IFREG 0 0 0)
        | None => None
        end
  end.

Definition ref_mkdir (p : string) (_ : Z) (w : world) : Z * world :=
  let q := norm p in
  match q with
  | EmptyString => (-1, w)
  | _ =>
      if String.eqb q "/" then (-1, w)
      else
        match lookup q w with
        | Some _ => (-1, w)
        | None =>
            if is_dir (dirname q) w then (0, (w ++ [(q, true)])%list)
            else (-1, w)
        end
  end.

Fixpoint delete (p : string) (w : world) : world :=
  match w with
  | [] => []
  | (q, d) :: rest =>
      if String.eqb p q then delete p rest else (q, d) :: delete p rest
  end.

Definition ref_remove (p : string) (w : world) : Z * world :=
  match lookup (norm p) w with
  | Some _ => (0, delete (norm p) w)
  | None => (-1, w)
  end.

Definition ref_utimes (p : string) (w : world) : Z * world :=
  match ref_stat p w with
  | Some _ => (0, w)
  | None => (-1, w)
  end.

Definition posix : Posix world :=
  mkPosix world ref_remove ref_utimes ref_stat ref_mkdir.

End RefPosix.

(** ** Directory walks *)

(** [struct dirent]: the two fields the file reads. *)
Record dirent : Type := mkDirent {
  d_name : string;
  d_type : Z
}.

(** [<dirent.h>]. *)
Definition DT_DIR : Z := 4.
Definition DT_REG : Z := 8.

#[local] Set Warnings "-register-all".

(** The directory tree as [recurseDumpDirectories] meets it: what
    [opendir] gives on a path, [NoDir] for [NULL], and with each entry
    that [readdir] delivers what [opendir] gives on the path of that
    entry. *)
Inductive dirstream : Type :=
| NoDir
| Dir (entries : list (dirent * dirstream)).

(** [buf[i]] for a buffer that holds the C string [s]: the terminator
    follows the characters. *)
Definition buffer_char (s : string) (i : nat) : ascii :=
  match String.get i s with
  | Some c => c
  | None => Ascii.zero
  end.

Section Walks.
(** [Platform::isExcludedDirectory] and [StringTable->insert] belong to the
    resource manager and to the string table. *)
Variable isExcludedDirectory : string -> bool.
Variable StringTable_insert : string -> string.

(** [isGoodDirectory]. *)
Definition isGoodDirectory (entry : dirent) : bool :=
  (d_type entry =? DT_DIR)
  && negb (String.eqb (d_name entry) ".")
  && negb (String.eqb (d_name entry) "..")
  && negb (isExcludedDirectory (d_name entry)).

(** The [newpath] of [recurseDumpDirectories]. *)
Definition entry_path (path : string) (entry : dirent) : string :=
  if (0 <? dStrlen path)%nat then (path ++ "/" ++ d_name entry)%string
  else d_name entry.

(** What [recurseDumpDirectories] pushes for [newpath]. *)
Definition pushed (basePath newpath : string) (noBasePath : bool) : string :=
  if noBasePath then StringTable_insert newpath
  else StringTable_insert (basePath ++ "/" ++ newpath)%string.

(** [recurseDumpDirectories]; [dir] is what [opendir(pathbuf)] gives for
    [pathbuf = basePath/path].  The inner loop is the [while] over
    [readdir]; the value of a recursive call is dropped, its vector kept. *)
Fixpoint recurseDumpDirectories (basePath path : string) (dir : dirstream)
    (directoryVector : list string) (depth : Z) (noBasePath : bool)
    {struct dir} : bool * list string :=
  match dir with
  | NoDir => (false, directoryVector)
  | Dir entries =>
      (true,
       (fix loop (es : list (dirent * dirstream)) (vec : list string)
          {struct es} : list string :=
          match es with
          | [] => vec
          | (entry, sub) :: rest =>
              if negb (isGoodDirectory entry) then loop rest vec
              else
                let newpath := entry_path path entry in
                let vec1 := (vec ++ [pushed basePath newpath noBasePath])%list in
                let vec2 :=
                  if negb (depth =? 0)
                  then snd (recurseDumpDirectories basePath newpath sub vec1
                              (S32 (depth - 1)) noBasePath)
                  else vec1 in
                loop rest vec2
          end) entries directoryVector)
  end.

(** The loop of [recurseDumpDirectories] on its own, for the statements. *)
Definition dump_entries (basePath path : string) (depth : Z)
    (noBasePath : bool) (es : list (dirent * dirstream)) (vec : list string)
  : list string :=
  (fix loop (es : list (dirent * dirstream)) (vec : list string)
     {struct es} : list string :=
     match es with
     | [] => vec
     | (entry, sub) :: rest =>
         if negb (isGoodDirectory entry) then loop rest vec
         else
           let newpath := entry_path path entry in
           let vec1 := (vec ++ [pushed basePath newpath noBasePath])%list in
           let vec2 :=
             if negb (depth =? 0)
             then snd (recurseDumpDirectories basePath newpath sub vec1
                         (S32 (depth - 1)) noBasePath)
             else vec1 in
           loop rest vec2
     end) es vec.

(** [Platform::dumpDirectories].  Its first call,
    [ResourceManager->initExcludedDirectories()], sets up the list that
    [isExcludedDirectory] reads during the walk.  [newpath[len - 1]] is
    the terminator of the copy, so the test for a trailing slash reads
    it. *)
Definition dumpDirectories (path : string) (root : dirstream)
    (directoryVector : list string) (depth : Z) (noBasePath : bool)
  : bool * list string :=
  let len := S (dStrlen path) in
  let newpath :=
    if Ascii.eqb (buffer_char path (len - 1)) slash
    then truncate (len - 1) path
    else path in
  let vec :=
    if negb noBasePath
    then (directoryVector ++ [StringTable_insert newpath])%list
    else directoryVector in
  recurseDumpDirectories newpath "" root vec depth noBasePath.

(** [Platform::FileInfo]. *)
Record FileInfo : Type := mkFileInfo {
  pFullPath : string;
  pFileName : string;
  fileSize : Z
}.

(** What [recurseDumpPath] reads from the file system: [opendir] on a
    path, [None] for [NULL], and through [Platform::getFileSize] the
    [stat] of the world [w]. *)
Variable opendir : string -> option (list dirent).
Variable W : Type.
Variable px : Posix W.
Variable w : W.

(** A read of [pathbuf].  The array is declared with [len = 0] and
    [dSprintf], given that length, stores nothing in it: its first
    character lies outside the array, and both [opendir] in the call
    [pathbuf] is passed to and [Platform::getFileSize] start by reading
    it. *)
Definition read_pathbuf : result string := Undefined.

(** [recurseDumpPath]; the depth is a [U32] and bounds the recursion.  The
    value of a recursive call is dropped, its vector kept. *)
Fixpoint recurseDumpPath_depth (depth : nat) (curPath : string)
    (fileVector : list FileInfo) {struct depth}
  : result (bool * list FileInfo) :=
  match opendir curPath with
  | None => Value (false, fileVector)
  | Some entries =>
      (fix loop (es : list dirent) (vec : list FileInfo) {struct es}
         : result (bool * list FileInfo) :=
         match es with
         | [] => Value (true, vec)
         | entry :: rest =>
             if d_type entry =? DT_DIR then
               match depth with
               | O => loop rest vec
               | S depth' =>
                   if negb (isGoodDirectory entry) then loop rest vec
                   else
                     match read_pathbuf with
                     | Value pathbuf =>
                         match recurseDumpPath_depth depth' pathbuf vec with
                         | Value r => loop rest (snd r)
                         | Undefined => Undefined
                         | OutOfFuel => OutOfFuel
                         end
                     | Undefined => Undefined
                     | OutOfFuel => OutOfFuel
                     end
               end
             else
               match read_pathbuf with
               | Value pathbuf =>
                   let size := U32 (getFileSize px (Some pathbuf) w) in
                   loop rest
                     (vec ++ [mkFileInfo (StringTable_insert curPath)
                                (StringTable_insert (d_name entry)) size])%list
               | Undefined => Undefined
               | OutOfFuel => OutOfFuel
               end
         end) entries fileVector
  end.

Definition recurseDumpPath (curPath : string) (fileVector : list FileInfo)
    (depth : Z) : result (bool * list FileInfo) :=
  recurseDumpPath_depth (Z.to_nat depth) curPath fileVector.

(** [Platform::dumpPath]; the [S32] depth becomes the [U32] of
    [recurseDumpPath].  For the empty path [newpath[len - 2]] is read
    outside the array. *)
Definition dumpPath (path : string) (fileVector : list FileInfo) (depth : Z)
  : result (bool * list FileInfo) :=
  match path with
  | EmptyString => Undefined
  | _ =>
      let len := S (dStrlen path) in
      let newpath :=
        if Ascii.eqb (buffer_char path (len - 2)) slash
        then truncate (len - 2) path
        else path in
      recurseDumpPath newpath fileVector (U32 depth)
  end.

(** The [pathbuf] of the first call of [recurseDumpDirectories]:
    [basePath/path] for the [newpath] of [dumpDirectories] and the empty
    relative path. *)
Definition root_pathbuf (path : string) : string :=
  let len := S (dStrlen path) in
  let newpath :=
    if Ascii.eqb (buffer_char path (len - 1)) slash
    then truncate (len - 1) path
    else path in
  (newpath ++ "/" ++ "")%string.

(** [Platform::dumpDirectories] on a file system that gives the tree
    [tree_at p] for [opendir(p)]. *)
Definition dumpDirectories_on (tree_at : string -> dirstream) (path : string)
    (directoryVector : list string) (depth : Z) (noBasePath : bool)
  : bool * list string :=
  dumpDirectories path (tree_at (root_pathbuf path)) directoryVector depth
    noBasePath.
End Walks.

Arguments recurseDumpPath_depth _ _ _ {W}.
Arguments recurseDumpPath _ _ _ {W}.
Arguments dumpPath _ _ _ {W}.

(** ** The rest of the file *)

Section FileRest.
Context {W FILE : Type} (os : Stdio W FILE).
(** [fflush] of [<stdio.h>], the one stream call [Stdio] leaves out. *)
Variable fflush : FILE -> W -> Z * W.
Local Open Scope string_scope.
Local Open Scope Z_scope.
Local Open Scope file_scope.

(** [File::flush]. *)
Definition flush : M W FILE Status :=
  f <- this ;;
  AssertFatal (negb (Status_eqb Closed (currentStatus f)))
    "File::flush: file closed" ;;;
  fp <- assert_handle "File::flush: invalid file handle" ;;
  AssertFatal (Bool.eqb true (hasCapability FileWrite f))
    "File::flush: cannot flush a read-only file" ;;;
  r <- call (fflush fp) ;;
  if negb (r =? 0) then setStatus os
  else (set_currentStatus Ok ;;; ret Ok).

(** [File::setStatus(File::Status)]. *)
Definition setStatus_to (status : Status) : M W FILE Status :=
  set_currentStatus status ;;; ret status.
End FileRest.

(** [Platform::compareFileTimes]; a [FileTime] is a number. *)
Definition compareFileTimes (a b : Z) : Z :=
  if b <? a then 1
  else if a <? b then -1
  else 0.

Section PlatformRest.
Context {W : Type} (px : Posix W).
(** [system] of [<stdlib.h>]. *)
Variable system : string -> W -> Z * W.

(** [Platform::openFolder]; [avar] formats the command, the console lines
    only print. *)
Definition openFolder (path : option string) (w : W) : W :=
  if negb (isDirectory px path w) then w
  else
    let arg :=
      ("open '" ++ match path with Some p => p | None => "" end ++ "'")%string in
    snd (system arg w).

(** [isMainDotCsPresent]; [AssertISV] stops in every build. *)
Definition isMainDotCsPresent (dir : string) (w : W) : outcome bool :=
  let maincsname := "/main.cs"%string in
  let len := Z.of_nat (dStrlen dir + dStrlen maincsname + 1) in
  if len <? MAX_MAC_PATH_LONG then
    let maincsbuf :=
      truncate (Z.to_nat (MAX_MAC_PATH_LONG - 1)) (dir ++ maincsname)%string in
    Ret (isFile px (Some maincsbuf) w)
  else Fatal "Sorry, path is too long, I can't run from this folder.".
End PlatformRest.

(** [Platform::getExecutablePath].  The state is [platState.mainDotCsDir]
    ([None] for [NULL]) and [StringTable] is the table pointer, [None]
    before the table exists; the result is the string returned with the
    state the call leaves. *)
Definition getExecutablePath (StringTable : option (string -> string))
    (mainDotCsDir : option string) : string * option string :=
  match mainDotCsDir with
  | Some d => (d, mainDotCsDir)
  | None =>
      match StringTable with
      | Some insert => let d := insert "."%string in (d, Some d)
      | None => ("."%string, None)
      end
  end.

Section WalksRest.
Variable isExcludedDirectory : string -> bool.

(** [Platform::hasSubDirectory]; [dir] is what [opendir(path)] gives. *)
Definition hasSubDirectory (dir : dirstream) : bool :=
  match dir with
  | NoDir => false
  | Dir entries =>
      (fix loop (es : list (dirent * dirstream)) : bool :=
         match es with
         | [] => false
         | (entry, _) :: rest =>
             if isGoodDirectory isExcludedDirectory entry then true
             else loop rest
         end) entries
  end.
End WalksRest.

(** [fflush] for the reference stream library: it fails on a failing
    medium. *)
Definition ref_fflush (_ : unit) (w : RefStdio.world) : Z * RefStdio.world :=
  RefStdio.on_stream w (-1)
    (if RefStdio.fault w then (-1, RefStdio.with_eno RefStdio.EIO w)
     else (0, w)).

(** ** Vocabulary of the statements *)

(** The status [File::setStatus()] derives from an [errno] value. *)
Definition classify (e : Z) : Status :=
  if e =? EACCES then IOError else UnknownError.

(** The object and the world once [open] has run its
    [if (currentStatus != Closed) close();]: [close] leaves a closed object
    as it is, so this is the state after [close] in both cases. *)
Definition after_close {W FILE : Type} (os : Stdio W FILE)
    (f : File FILE) (w : W) : File FILE * W :=
  match close os f w with
  | Ret (_, f', w') => (f', w')
  | Fatal _ => (f, w)
  end.

(** The status [open] returns for [ReadWrite] on the fresh stream [fp]: the
    one its [setPosition(0)] leaves. *)
Definition ReadWrite_status {W FILE : Type} (os : Stdio W FILE)
    (fp : FILE) (w : W) : Status :=
  let w2 := snd (fseek os fp 0 SEEK_SET w) in
  let (p, w3) := ftell os fp w2 in
  if 4294967295 =? U32 p then classify (errno os w3)
  else
    match fst (fstat_size os fp w3) with
    | None => EOS
    | Some st_size => if U32 st_size <=? U32 p then EOS else Ok
    end.

(** [getSize()] as a function of what [fstat] reports. *)
Definition size_of_fstat (r : option Z) : Z :=
  match r with
  | None => 0
  | Some st_size => U32 st_size
  end.

Definition whence_of (absolutePos : bool) : Whence :=
  if absolutePos then SEEK_SET else SEEK_CUR.

(** The status a seek ends in, from the offset [p] that [ftell] reports
    after it (in the world [w] it leaves) and the size [sz] of the file. *)
Definition seek_status {W FILE : Type} (os : Stdio W FILE)
    (p : Z) (w : W) (sz : Z) : Status :=
  if 4294967295 =? U32 p then classify (errno os w)
  else if sz <=? U32 p then EOS else Ok.

(** The world [open] leaves for [ReadWrite]: the stream is sent to offset 0
    with [fseek], the offset is read back with [ftell] and, unless that
    fails, the size is taken with [fstat]. *)
Definition ReadWrite_world {W FILE : Type} (os : Stdio W FILE)
    (fp : FILE) (w : W) : W :=
  let w2 := snd (fseek os fp 0 SEEK_SET w) in
  let (p, w3) := ftell os fp w2 in
  if 4294967295 =? U32 p then w3 else snd (fstat_size os fp w3).

(** The class keeps a closed object without a stream: the constructor
    starts there and [close] clears the handle when it sets [Closed]. *)
Definition closed_has_no_stream {FILE : Type} (f : File FILE) : Prop :=
  currentStatus f = Closed -> handle f = None.

(** The world after the stream an object holds, if any, was given to
    [fclose]. *)
Definition released {W FILE : Type} (os : Stdio W FILE)
    (f : File FILE) (w : W) : W :=
  match handle f with
  | Some fp => snd (fclose os fp w)
  | None => w
  end.


(** [path] exists in the world [w]: [stat] succeeds on it. *)
Definition path_exists {W : Type} (px : Posix W) (path : string) (w : W)
  : bool :=
  is_some (os_stat px path w).

(** [q] is an ancestor of [file]: it is reached from [file] by taking the
    parent path, the way [createPath] does, once or more. *)
Inductive ancestor : string -> string -> Prop :=
| ancestor_parent (file p : string) :
    parent_path file = Some p -> ancestor p file
| ancestor_step (file p q : string) :
    parent_path file = Some p -> ancestor q p -> ancestor q file.

(** In a file system, what exists has its parent. *)
Definition parents_exist {W : Type} (px : Posix W) (w : W) : Prop :=
  forall p q : string,
    path_exists px p w = true -> parent_path p = Some q ->
    path_exists px q w = true.

(** The number of directory levels of a tree. *)
Fixpoint height (dir : dirstream) : nat :=
  match dir with
  | NoDir => O
  | Dir entries =>
      S ((fix heights (es : list (dirent * dirstream)) : nat :=
            match es with
            | [] => O
            | (_, sub) :: rest => Nat.max (height sub) (heights rest)
            end) entries)
  end.

(** [nested good path dir p]: below the directory [dir], walked under the
    relative path [path], there is a directory whose relative path is [p],
    reached through entries that pass [good] only; what lies on the way
    was opened. *)
Inductive nested (good : dirent -> bool)
  : string -> dirstream -> string -> Prop :=
| nested_entry (path : string) (es : list (dirent * dirstream))
    (e : dirent) (sub : dirstream) :
    In (e, sub) es -> good e = true ->
    nested good path (Dir es) (entry_path path e)
| nested_below (path : string) (es : list (dirent * dirstream))
    (e : dirent) (sub : dirstream) (p : string) :
    In (e, sub) es -> good e = true ->
    nested good (entry_path path e) sub p ->
    nested good path (Dir es) p.

(** Induction on a directory tree, with the property for the
    subdirectories of a directory. *)
Fixpoint dirstream_rect' (P : dirstream -> Prop) (HN : P NoDir)
    (HD : forall es, Forall (fun x => P (snd x)) es -> P (Dir es))
    (d : dirstream) {struct d} : P d :=
  match d with
  | NoDir => HN
  | Dir es =>
      HD es
        ((fix all (es : list (dirent * dirstream))
            : Forall (fun x => P (snd x)) es :=
            match es with
            | [] => Forall_nil _
            | x :: rest =>
                Forall_cons x (dirstream_rect' P HN HD (snd x)) (all rest)
            end) es)
  end.


(** What a method that keeps the stream leaves of the object [f] in [f']:
    the same handle and capability, and a status that is not [Closed]. *)
Definition keeps_stream {FILE : Type} (f f' : File FILE) : Prop :=
  handle f' = handle f /\ capability f' = capability f /\
  currentStatus f' <> Closed.

(** A directory tree cut below its first [n] levels: what lies deeper
    does not open. *)
Fixpoint prune (n : nat) (dir : dirstream) {struct n} : dirstream :=
  match n with
  | O => NoDir
  | S k =>
      match dir with
      | NoDir => NoDir
      | Dir entries => Dir (map (fun x => (fst x, prune k (snd x))) entries)
      end
  end.

(** The loop of [recurseDumpPath] as far as it is defined: it passes the
    directory entries it neither lists nor descends into, and stops at
    the first entry that makes it read [pathbuf]. *)
Fixpoint passes_entries (isExcludedDirectory : string -> bool)
    (depth : nat) (es : list dirent) : bool :=
  match es with
  | [] => true
  | entry :: rest =>
      (d_type entry =? DT_DIR)
      && (Nat.eqb depth 0
          || negb (isGoodDirectory isExcludedDirectory entry))
      && passes_entries isExcludedDirectory depth rest
  end.

(** Without its trailing slashes; [/] and the empty path alike. *)
Fixpoint strip_slashes (s : string) : string :=
  match s with
  | EmptyString => EmptyString
  | String c rest =>
      let r := strip_slashes rest in
      if Ascii.eqb c slash && String.eqb r EmptyString then EmptyString
      else String c r
  end.

(** The entries [recurseDumpPath] does something with: what is not a
    directory, and the directories that pass [isGoodDirectory]. *)
Definition walked_entry (isExcludedDirectory : string -> bool)
    (e : dirent) : bool :=
  negb (d_type e =? DT_DIR) || isGoodDirectory isExcludedDirectory e.

(** [mkdir(d, 0777)] on the directories of a list in turn, up to the first
    that fails: [true] when none fails. *)
Fixpoint make_dirs {W : Type} (px : Posix W) (dirs : list string) (w : W)
  : bool * W :=
  match dirs with
  | [] => (true, w)
  | d :: rest =>
      let (r, w') := os_mkdir px d 511 w in
      if negb (r =? 0) then (false, w') else make_dirs px rest w'
  end.

(** The directories [createPath] has to make for [file] in the world [w]:
    nothing when [file] exists; otherwise what it has to make for the
    parent path, and then [file] itself when it has a trailing slash.
    The budget bounds the climb as in [createPath_fuel]. *)
Fixpoint to_make_fuel {W : Type} (px : Posix W) (fuel : nat) (file : string)
    (w : W) : list string :=
  match fuel with
  | O => []
  | S k =>
      if path_exists px file w then []
      else
        (match parent_path file with
         | Some parent => to_make_fuel px k parent w
         | None => []
         end ++ (if has_trailing_slash file then [file] else []))%list
  end.

Definition to_make {W : Type} (px : Posix W) (file : string) (w : W)
  : list string :=
  to_make_fuel px (S (dStrlen file)) file w.

(** * Properties *)

#[local] Arguments Z.eqb : simpl never.
#[local] Arguments Z.leb : simpl never.
#[local] Arguments Z.ltb : simpl never.

Lemma Status_eqb_eq (a b : Status) : Status_eqb a b = true <-> a = b.
Proof. destruct a, b; simpl; split; intro H; congruence. Qed.


(** ** Running the monad *)

(** One library call or test of the goal, split into its results; a call
    met before is replaced by what it gave then. *)
Ltac os_step :=
  match goal with
  | H : ?t = (_, _) |- context [?t] => rewrite H
  | |- context [fopen ?os ?n ?m ?w] =>
      destruct (fopen os n m w) as [[?fp|] ?w] eqn:?
  | |- context [fclose ?os ?fp ?w] => destruct (fclose os fp w) as [?r ?w] eqn:?
  | |- context [fseek ?os ?fp ?p ?wh ?w] =>
      destruct (fseek os fp p wh w) as [?r ?w] eqn:?
  | |- context [ftell ?os ?fp ?w] => destruct (ftell os fp w) as [?p ?w] eqn:?
  | |- context [fstat_size ?os ?fp ?w] =>
      destruct (fstat_size os fp w) as [[?sz|] ?w] eqn:?
  | |- context [fread ?os ?fp ?n ?w] =>
      destruct (fread os fp n w) as [?d ?w] eqn:?
  | |- context [fwrite ?os ?fp ?n ?b ?w] =>
      destruct (fwrite os fp n b w) as [?n ?w] eqn:?
  | |- context [if ?c then _ else _] => destruct c eqn:?
  end; simpl.

Ltac unfold_monad :=
  unfold bind, ret, this, world, call, AssertFatal, assert_handle,
    set_currentStatus, set_capability, set_handle, getStatus in *.

Section FileFacts.
Context {W FILE : Type} (os : Stdio W FILE).

Lemma setStatus_eq (f : File FILE) (w : W) :
  setStatus os f w =
  Ret (classify (errno os w),
       mkFile (classify (errno os w)) (capability f) (handle f), w).
Proof.
  unfold setStatus, classify; unfold_monad; simpl.
  destruct (errno os w =? EACCES); simpl; [reflexivity|].
  destruct ((errno os w =? EBADF) || (errno os w =? EINVAL)
            || (errno os w =? ENOENT) || (errno os w =? ENAMETOOLONG));
    reflexivity.
Qed.

Lemma classify_isError (e : Z) : isError (classify e) = true.
Proof. unfold classify; destruct (e =? EACCES); reflexivity. Qed.

Lemma close_Closed (f : File FILE) (w : W) :
  currentStatus f = Closed -> close os f w = Ret (Closed, f, w).
Proof.
  intro H; unfold close; unfold_monad; rewrite H; reflexivity.
Qed.

(** [close] never stops at an assertion. *)
Lemma close_returns (f : File FILE) (w : W) :
  exists s f' w', close os f w = Ret (s, f', w') /\ currentStatus f' = s.
Proof.
  unfold close; unfold_monad.
  destruct (Status_eqb Closed (currentStatus f)) eqn:E.
  - apply Status_eqb_eq in E. eauto.
  - destruct (handle f) as [fp|]; simpl; [|eauto].
    destruct (fclose os fp w) as [r w1]; simpl.
    destruct (negb (r =? 0)); simpl; [|eauto].
    rewrite setStatus_eq; eauto.
Qed.
End FileFacts.

Section OpenFacts.
Context {W FILE : Type} (os : Stdio W FILE).

Lemma after_close_eq (f : File FILE) (w : W) :
  exists s, close os f w = Ret (s, fst (after_close os f w),
                                snd (after_close os f w)).
Proof.
  unfold after_close.
  destruct (close_returns os f w) as (s & f' & w' & H & _).
  rewrite H; simpl; eauto.
Qed.

(** The prefix of [open] up to the two switches. *)
Lemma open_unfold (filename : string) (openMode : AccessMode)
    (f : File FILE) (w : W) :
  open os filename openMode f w =
  let (f0, w0) := after_close os f w in
  let (h, w1) := fopen os filename (fopen_mode openMode) w0 in
  match h with
  | None => setStatus os (mkFile (currentStatus f0) (capability f0) None) w1
  | Some fp =>
      let f1 := mkFile Ok (open_capability openMode) (Some fp) in
      match openMode with
      | ReadWrite =>
          match setPosition os 0 true f1 w1 with
          | Ret (_, f2, w2) => Ret (currentStatus f2, f2, w2)
          | Fatal msg => Fatal msg
          end
      | _ => Ret (Ok, f1, w1)
      end
  end.
Proof.
  destruct (after_close_eq f w) as [s Hc].
  destruct (after_close os f w) as [f0 w0]; simpl in Hc.
  unfold open; unfold_monad.
  destruct (negb (Status_eqb (currentStatus f) Closed)) eqn:E.
  - rewrite Hc. destruct (fopen os filename (fopen_mode openMode) w0) as [h w1].
    destruct h as [fp|]; simpl; [|reflexivity].
    destruct openMode; simpl; try reflexivity.
    destruct (setPosition os 0 true _ w1) as [msg|[[s2 f2] w2]]; reflexivity.
  - apply negb_false_iff, Status_eqb_eq in E.
    rewrite (close_Closed os f w E) in Hc. inversion Hc; subst.
    destruct (fopen os filename (fopen_mode openMode) w0) as [h w1].
    destruct h as [fp|]; simpl; [|reflexivity].
    destruct openMode; simpl; try reflexivity.
    destruct (setPosition os 0 true _ w1) as [msg|[[s2 f2] w2]]; reflexivity.
Qed.
End OpenFacts.

Section SeekFacts.
Context {W FILE : Type} (os : Stdio W FILE).

Lemma U32_nonneg (z : Z) : 0 <= U32 z.
Proof. unfold U32. apply Z.mod_pos_bound. reflexivity. Qed.

Lemma U32_small (z : Z) : 0 <= z < 2 ^ 32 -> U32 z = z.
Proof. intro H. unfold U32. apply Z.mod_small. exact H. Qed.

Lemma getSize_eq (f : File FILE) (fp : FILE) (w : W) :
  handle f = Some fp ->
  currentStatus f = Ok \/ currentStatus f = EOS ->
  getSize os f w =
  Ret (size_of_fstat (fst (fstat_size os fp w)), f, snd (fstat_size os fp w)).
Proof.
  intros Hh Hs. unfold getSize; unfold_monad. rewrite Hh.
  destruct Hs as [-> | ->]; simpl;
    destruct (fstat_size os fp w) as [[st_size|] w']; reflexivity.
Qed.

(** [setPosition] on a stream in state [Ok] or [EOS], past its
    assertions. *)
Lemma setPosition_eq (position : Z) (absolutePos : bool)
    (f : File FILE) (fp : FILE) (w : W) :
  handle f = Some fp ->
  currentStatus f = Ok \/ currentStatus f = EOS ->
  (absolutePos = true -> 0 <= position) ->
  let w0 := if absolutePos then w else snd (ftell os fp w) in
  let w1 := snd (fseek os fp position (whence_of absolutePos) w0) in
  let p := fst (ftell os fp w1) in
  let w2 := snd (ftell os fp w1) in
  let sz := size_of_fstat (fst (fstat_size os fp w2)) in
  let s := seek_status os p w2 sz in
  setPosition os position absolutePos f w =
  Ret (s, mkFile s (capability f) (Some fp),
       if 4294967295 =? U32 p then w2 else snd (fstat_size os fp w2)).
Proof.
  intros Hh Hs Hpos; cbv zeta.
  destruct f as [s c h]; simpl in *; subst h.
  unfold setPosition, getPosition, getSize, seek_status, size_of_fstat.
  unfold_monad.
  destruct absolutePos; simpl.
  - specialize (Hpos eq_refl). apply Z.leb_le in Hpos.
    destruct Hs; subst s; simpl; rewrite Hpos; repeat os_step;
      rewrite ?setStatus_eq; simpl; repeat os_step; reflexivity.
  - destruct Hs; subst s; simpl; repeat os_step;
      rewrite ?setStatus_eq; simpl; repeat os_step;
      first [ reflexivity
            | exfalso;
              match goal with
              | H : (0 <=? U32 ?z) = false |- _ =>
                  apply Z.leb_gt in H; pose proof (U32_nonneg z); lia
              end ].
Qed.
End SeekFacts.

(** ** File::open *)

Section OpenClaim.
Context {W FILE : Type} (os : Stdio W FILE).

(** C1 (amended).  For every call to [File::open], after the object was
    closed if it was not: when [fopen] gives [NULL] the status is the
    classification of [errno] ([EACCES] gives [IOError], every other
    value [UnknownError]), the handle is [NULL] and that status is
    returned; when it gives a stream the capability is the one of the
    mode, and the status that is set and returned is [Ok] for [Read],
    [Write] and [WriteAppend], while for [ReadWrite] the stream is sent to
    offset 0 and the status is the one that seek leaves: [EOS] when the
    file is empty, [Ok] when it is not, the classification of [errno] when
    the offset cannot be read back. *)
Theorem open_sets_status (filename : string) (openMode : AccessMode)
    (f : File FILE) (w : W) :
  let f0 := fst (after_close os f w) in
  let w0 := snd (after_close os f w) in
  let w1 := snd (fopen os filename (fopen_mode openMode) w0) in
  match fst (fopen os filename (fopen_mode openMode) w0) with
  | None =>
      open os filename openMode f w =
      Ret (classify (errno os w1),
           mkFile (classify (errno os w1)) (capability f0) None, w1)
  | Some fp =>
      match openMode with
      | ReadWrite =>
          open os filename openMode f w =
          Ret (ReadWrite_status os fp w1,
               mkFile (ReadWrite_status os fp w1)
                 (Z.lor FileRead FileWrite) (Some fp),
               ReadWrite_world os fp w1)
      | Read =>
          open os filename openMode f w =
          Ret (Ok, mkFile Ok FileRead (Some fp), w1)
      | Write | WriteAppend =>
          open os filename openMode f w =
          Ret (Ok, mkFile Ok FileWrite (Some fp), w1)
      end
  end.
Proof.
  cbv zeta. rewrite open_unfold.
  destruct (after_close os f w) as [f0 w0]; cbn [fst snd].
  destruct (fopen os filename (fopen_mode openMode) w0) as [[fp|] w1];
    cbn [fst snd].
  - destruct openMode; try reflexivity. cbv [open_capability].
    rewrite (setPosition_eq os 0 true
               (mkFile Ok (Z.lor FileRead FileWrite) (Some fp)) fp w1
               eq_refl (or_introl eq_refl));
      [|intros _; lia].
    unfold ReadWrite_status, ReadWrite_world, seek_status, size_of_fstat.
    cbv [whence_of].
    destruct (ftell os fp (snd (fseek os fp 0 SEEK_SET w1))) as [p w3].
    cbn [fst snd]. destruct (4294967295 =? U32 p); [reflexivity|].
    destruct (fstat_size os fp w3) as [[sz|] w4]; cbn [fst snd].
    + destruct (U32 sz <=? U32 p); reflexivity.
    + rewrite (proj2 (Z.leb_le 0 (U32 p)) (U32_nonneg p)). reflexivity.
  - rewrite setStatus_eq. reflexivity.
Qed.
End OpenClaim.

(** C1 as stated fails: [ReadWrite] on an empty file acquires the stream
    and returns [EOS], not [Ok]. *)
Lemma open_ReadWrite_empty_not_Ok :
  let w := RefStdio.disk "f" (Some []) in
  fst (fopen RefStdio.stdio "f" "ab+" w) = Some tt /\
  exists f' w',
    open RefStdio.stdio "f" ReadWrite File_new w = Ret (EOS, f', w') /\
    EOS <> Ok.
Proof.
  split; [reflexivity|].
  eexists; eexists; split; [vm_compute; reflexivity | discriminate].
Qed.

(** ** File::close and the destructor *)

Section CloseClaim.
Context {W FILE : Type} (os : Stdio W FILE).

Lemma close_open_stream (f : File FILE) (fp : FILE) (w : W) :
  currentStatus f <> Closed -> handle f = Some fp ->
  close os f w =
  if fst (fclose os fp w) =? 0
  then Ret (Closed, mkFile Closed (capability f) None, snd (fclose os fp w))
  else Ret (classify (errno os (snd (fclose os fp w))),
            mkFile (classify (errno os (snd (fclose os fp w))))
              (capability f) (Some fp),
            snd (fclose os fp w)).
Proof.
  intros Hs Hh. unfold close; unfold_monad.
  destruct (Status_eqb Closed (currentStatus f)) eqn:E.
  - apply Status_eqb_eq in E. congruence.
  - rewrite Hh. destruct (fclose os fp w) as [r w1]; simpl.
    destruct (r =? 0); simpl; [reflexivity|].
    rewrite setStatus_eq; simpl. rewrite Hh. reflexivity.
Qed.

Lemma close_no_stream (f : File FILE) (w : W) :
  currentStatus f <> Closed -> handle f = None ->
  close os f w = Ret (Closed, mkFile Closed (capability f) None, w).
Proof.
  intros Hs Hh. unfold close; unfold_monad.
  destruct (Status_eqb Closed (currentStatus f)) eqn:E.
  - apply Status_eqb_eq in E. congruence.
  - rewrite Hh. reflexivity.
Qed.

Lemma Status_Closed_dec (s : Status) : {s = Closed} + {s <> Closed}.
Proof. destruct s; (left; reflexivity) || (right; discriminate). Qed.

(** Where [fclose] succeeds, [close] clears the handle and a second
    [close] finds the object closed. *)
Lemma close_twice_when_fclose_succeeds (f : File FILE) (fp : FILE) (w : W) :
  currentStatus f <> Closed -> handle f = Some fp ->
  fst (fclose os fp w) = 0 ->
  let f1 := mkFile Closed (capability f) None in
  let w1 := snd (fclose os fp w) in
  close os f w = Ret (Closed, f1, w1) /\
  close os f1 w1 = Ret (Closed, f1, w1).
Proof.
  intros Hs Hh H0; cbv zeta.
  rewrite (close_open_stream f fp w Hs Hh), H0; simpl.
  split; [reflexivity | apply close_Closed; reflexivity].
Qed.

(** Where [fclose] fails, the early return of [close] skips
    [handle = NULL]: the object keeps the stream it gave to [fclose]. *)
Lemma close_keeps_handle_when_fclose_fails (f : File FILE) (fp : FILE)
    (w : W) :
  currentStatus f <> Closed -> handle f = Some fp ->
  fst (fclose os fp w) <> 0 ->
  let w1 := snd (fclose os fp w) in
  close os f w =
  Ret (classify (errno os w1),
       mkFile (classify (errno os w1)) (capability f) (Some fp), w1).
Proof.
  intros Hs Hh H0; cbv zeta.
  rewrite (close_open_stream f fp w Hs Hh).
  apply Z.eqb_neq in H0. rewrite H0. reflexivity.
Qed.
End CloseClaim.

(** C7 (code defect).  On a stream whose [fclose] fails (here the medium
    reports an I/O error at the final flush), [close] does not return
    [Closed] but [UnknownError], and it leaves in the object the handle of
    the stream that [fclose] has released.  A second [close], and the
    destructor as well, then give that released stream to [fclose] once
    more, which C leaves undefined: the reference library marks the world
    [Misused].  So two successive calls do not both return [Closed], and
    the error path does not leave the object without a stream as the
    other path does. *)
Theorem close_after_failed_fclose :
  let w := RefStdio.mkWorld "f" (Some []) false 0 false 0 true in
  let f := mkFile Ok FileWrite (Some tt) in
  exists f1 w1,
    close RefStdio.stdio f w = Ret (UnknownError, f1, w1) /\
    handle f1 = Some tt /\
    RefStdio.stream w1 = RefStdio.Released /\
    (exists s2 f2 w2,
        close RefStdio.stdio f1 w1 = Ret (s2, f2, w2) /\
        RefStdio.stream w2 = RefStdio.Misused) /\
    (exists f3 w3,
        File_destroy RefStdio.stdio f1 w1 = Ret (tt, f3, w3) /\
        RefStdio.stream w3 = RefStdio.Misused).
Proof.
  cbv zeta. do 2 eexists.
  split; [vm_compute; reflexivity|].
  split; [reflexivity|]. split; [reflexivity|].
  split.
  - do 3 eexists. split; [vm_compute; reflexivity | reflexivity].
  - do 2 eexists. split; [vm_compute; reflexivity | reflexivity].
Qed.

(** ** File::read and File::write *)

Section ReadWriteClaims.
Context {W FILE : Type} (os : Stdio W FILE).

Lemma Status_eqb_refl (s : Status) : Status_eqb s s = true.
Proof. destruct s; reflexivity. Qed.

Lemma Status_eqb_neq (a b : Status) : a <> b -> Status_eqb a b = false.
Proof.
  intro H. destruct (Status_eqb a b) eqn:E; [|reflexivity].
  apply Status_eqb_eq in E. contradiction.
Qed.

(** C10.  On an open object, for a call that meets the assertions of the
    method (capability present, buffer not [NULL]), [read] and [write]
    with [size = 0] make no library call (the world is unchanged), leave
    the object and so its status unchanged, return that status, and
    leave the cell behind [bytesRead] or [bytesWritten] as it was, also
    when the pointer is not [NULL]. *)
Theorem read_write_size_zero (f : File FILE) (fp : FILE) (w : W)
    (buf : list Byte.byte) (cell : option Z) :
  currentStatus f <> Closed ->
  handle f = Some fp ->
  (hasCapability FileRead f = true ->
   read os 0 (Some buf) cell f w =
   Ret (currentStatus f, Some buf, cell, f, w)) /\
  (hasCapability FileWrite f = true ->
   write os 0 (Some buf) cell f w = Ret (currentStatus f, cell, f, w)).
Proof.
  intros Hs Hh.
  assert (E : Status_eqb Closed (currentStatus f) = false)
    by (apply Status_eqb_neq; congruence).
  split; intro Hc.
  - unfold read; unfold_monad.
    repeat (first [rewrite E | rewrite Hh | rewrite Hc]; simpl).
    rewrite orb_true_r. reflexivity.
  - unfold write; unfold_monad.
    repeat (first [rewrite E | rewrite Hh | rewrite Hc]; simpl).
    rewrite orb_true_r. reflexivity.
Qed.
End ReadWriteClaims.

Lemma read_write_size_zero_witness :
  let f := mkFile Ok (Z.lor FileRead FileWrite) (Some tt) in
  let w := RefStdio.disk "f" (Some [Byte.x61]) in
  read RefStdio.stdio 0 (Some [Byte.x00]) (Some 7) f w =
  Ret (Ok, Some [Byte.x00], Some 7, f, w) /\
  write RefStdio.stdio 0 (Some [Byte.x00]) (Some 7) f w =
  Ret (Ok, Some 7, f, w).
Proof.
  cbv zeta.
  pose proof (read_write_size_zero RefStdio.stdio
                (mkFile Ok (Z.lor FileRead FileWrite) (Some tt)) tt
                (RefStdio.disk "f" (Some [Byte.x61])) [Byte.x00] (Some 7)
                ltac:(discriminate) eq_refl) as [Hr Hw].
  split; [apply Hr | apply Hw]; reflexivity.
Defined.

Section ReadClaim.
Context {W FILE : Type} (os : Stdio W FILE).

(** C2 (amended).  For every [read(size, dst, bytesRead)] with
    [size > 0] on an object in state [Ok] with the [FileRead] capability:
    the bytes [fread] delivers, at most [size] of them, are stored at the
    start of [dst]; the status becomes [EOS] exactly when they are fewer
    than [size] and stays [Ok] otherwise; the status is returned; and
    when [bytesRead] is not [NULL] its cell receives their number. *)
Theorem read_copies_and_counts (size : Z) (buf : list Byte.byte)
    (cell : option Z) (f : File FILE) (fp : FILE) (w : W) :
  currentStatus f = Ok ->
  handle f = Some fp ->
  hasCapability FileRead f = true ->
  0 < size < 2 ^ 32 ->
  let data := fst (fread os fp size w) in
  let n := Z.of_nat (List.length data) in
  n <= size ->
  let s := if n <? size then EOS else Ok in
  read os size (Some buf) cell f w =
  Ret (s, Some (store data buf),
       match cell with Some _ => Some n | None => None end,
       mkFile s (capability f) (Some fp), snd (fread os fp size w)).
Proof.
  intros Hs Hh Hc Hsize data n Hn s.
  assert (Hu : U32 n = n).
  { apply U32_small. subst n. lia. }
  destruct f as [st c h]; simpl in *; subst st h.
  unfold read; unfold_monad; simpl. rewrite Hc; simpl.
  destruct (0 =? size) eqn:E0; [apply Z.eqb_eq in E0; lia|].
  subst s n data. destruct (fread os fp size w) as [d w1]; simpl in *.
  rewrite Hu.
  destruct (Z.of_nat (List.length d) <? size) eqn:E1.
  - apply Z.ltb_lt in E1.
    destruct (Z.of_nat (List.length d) =? size) eqn:E2;
      [apply Z.eqb_eq in E2; lia|]. reflexivity.
  - apply Z.ltb_ge in E1.
    destruct (Z.of_nat (List.length d) =? size) eqn:E2;
      [|apply Z.eqb_neq in E2; lia]. reflexivity.
Qed.

(** C6 (amended).  For every [write(size, src, bytesWritten)] with
    [size > 0] on an object in state [Ok] or [EOS] with the [FileWrite]
    capability: when [bytesWritten] is not [NULL] its cell receives the
    count [fwrite] returns, and the status becomes an error status (the
    classification of [errno]) exactly when that count is less than
    [size]; otherwise it stays as it was.  The status is returned. *)
Theorem write_counts_and_flags (size : Z) (buf : list Byte.byte)
    (cell : option Z) (f : File FILE) (fp : FILE) (w : W) :
  currentStatus f = Ok \/ currentStatus f = EOS ->
  handle f = Some fp ->
  hasCapability FileWrite f = true ->
  0 < size < 2 ^ 32 ->
  let n := fst (fwrite os fp size buf w) in
  let w1 := snd (fwrite os fp size buf w) in
  0 <= n <= size ->
  let s := if n <? size then classify (errno os w1) else currentStatus f in
  write os size (Some buf) cell f w =
  Ret (s, match cell with Some _ => Some n | None => None end,
       mkFile s (capability f) (Some fp), w1) /\
  (isError s = true <-> n < size).
Proof.
  intros Hs Hh Hc Hsize n w1 Hn s.
  assert (Hu : U32 n = n) by (apply U32_small; lia).
  assert (Hne : isError (currentStatus f) = false)
    by (destruct Hs as [-> | ->]; reflexivity).
  split.
  - destruct f as [st c h]; simpl in *; subst h.
    subst s n w1. unfold write; unfold_monad.
    destruct Hs; subst st; simpl; rewrite Hc; simpl;
      (destruct (0 =? size) eqn:E0; [apply Z.eqb_eq in E0; lia|]);
      simpl; destruct (fwrite os fp size buf w) as [k w2]; simpl in *;
      rewrite Hu;
      (destruct (k <? size) eqn:E1;
       [ apply Z.ltb_lt in E1;
         destruct (k =? size) eqn:E2; [apply Z.eqb_eq in E2; lia|];
         simpl; rewrite setStatus_eq; reflexivity
       | apply Z.ltb_ge in E1;
         destruct (k =? size) eqn:E2; [|apply Z.eqb_neq in E2; lia];
         reflexivity ]).
  - subst s. destruct (n <? size) eqn:E1.
    + apply Z.ltb_lt in E1. rewrite classify_isError. tauto.
    + apply Z.ltb_ge in E1. rewrite Hne. split; [discriminate | lia].
Qed.
End ReadClaim.

(** [read_copies_and_counts] on a three-byte file: asking for five bytes
    delivers three and ends in [EOS]. *)
Lemma read_copies_and_counts_witness :
  let f := mkFile Ok FileRead (Some tt) in
  let w := RefStdio.disk "f" (Some [Byte.x61; Byte.x62; Byte.x63]) in
  read RefStdio.stdio 5
    (Some [Byte.x00; Byte.x00; Byte.x00; Byte.x00; Byte.x00]) (Some 0) f w =
  Ret (EOS, Some [Byte.x61; Byte.x62; Byte.x63; Byte.x00; Byte.x00], Some 3,
       mkFile EOS FileRead (Some tt), RefStdio.with_cursor 3 w).
Proof.
  cbv zeta.
  apply (read_copies_and_counts RefStdio.stdio 5
           [Byte.x00; Byte.x00; Byte.x00; Byte.x00; Byte.x00] (Some 0)
           (mkFile Ok FileRead (Some tt)) tt
           (RefStdio.disk "f" (Some [Byte.x61; Byte.x62; Byte.x63]))).
  - reflexivity.
  - reflexivity.
  - reflexivity.
  - lia.
  - vm_compute. discriminate.
Defined.

(** C2 as stated fails at [size = 0]: the call reads no byte, yet the cell
    behind a non-null [bytesRead] is not set to that count; it keeps the 7
    it held. *)
Lemma read_size_zero_keeps_bytesRead :
  let f := mkFile Ok FileRead (Some tt) in
  let w := RefStdio.disk "f" (Some [Byte.x61]) in
  read RefStdio.stdio 0 (Some [Byte.x00]) (Some 7) f w =
  Ret (Ok, Some [Byte.x00], Some 7, f, w) /\ 7 <> 0.
Proof. split; [reflexivity | discriminate]. Qed.

(** [write_counts_and_flags] on a failing medium: nothing is written and
    the status becomes [UnknownError]. *)
Lemma write_counts_and_flags_witness :
  let f := mkFile Ok FileWrite (Some tt) in
  let w := RefStdio.mkWorld "f" (Some []) false 0 false 0 true in
  write RefStdio.stdio 2 (Some [Byte.x61; Byte.x62]) (Some 9) f w =
  Ret (UnknownError, Some 0, mkFile UnknownError FileWrite (Some tt),
       RefStdio.with_eno RefStdio.EIO w) /\
  (isError UnknownError = true <-> 0 < 2).
Proof.
  cbv zeta.
  apply (write_counts_and_flags RefStdio.stdio 2 [Byte.x61; Byte.x62]
           (Some 9) (mkFile Ok FileWrite (Some tt)) tt
           (RefStdio.mkWorld "f" (Some []) false 0 false 0 true)).
  - left. reflexivity.
  - reflexivity.
  - reflexivity.
  - lia.
  - simpl. lia.
Defined.

(** C6 as stated fails at [size = 0]: the call writes no byte, yet the cell
    behind a non-null [bytesWritten] is not set to that count; it keeps
    the 7 it held. *)
Lemma write_size_zero_keeps_bytesWritten :
  let f := mkFile Ok FileWrite (Some tt) in
  let w := RefStdio.disk "f" (Some [Byte.x61]) in
  write RefStdio.stdio 0 (Some [Byte.x00]) (Some 7) f w =
  Ret (Ok, Some 7, f, w) /\ 7 <> 0.
Proof. split; [reflexivity | discriminate]. Qed.

(** ** File::setPosition and File::getPosition *)

Section SeekClaim.
Context {W FILE : Type} (os : Stdio W FILE).


Lemma seek_status_not_Closed (p : Z) (w : W) (sz : Z) :
  seek_status os p w sz <> Closed.
Proof.
  unfold seek_status, classify.
  destruct (4294967295 =? U32 p); [destruct (errno os w =? EACCES)|];
    [discriminate | discriminate |].
  destruct (sz <=? U32 p); discriminate.
Qed.

End SeekClaim.


(** ** The invariant of the class *)

Section Invariant.
Context {W FILE : Type} (os : Stdio W FILE).

Lemma File_new_invariant : closed_has_no_stream (@File_new FILE).
Proof. intros _. reflexivity. Qed.

Lemma classify_not_Closed (e : Z) : classify e <> Closed.
Proof. unfold classify. destruct (e =? EACCES); discriminate. Qed.

Lemma close_invariant (f : File FILE) (w : W) :
  closed_has_no_stream f ->
  forall s f' w', close os f w = Ret (s, f', w') -> closed_has_no_stream f'.
Proof.
  intros Hf s f' w' Hc.
  destruct (Status_Closed_dec (currentStatus f)) as [E|E].
  - rewrite (close_Closed os f w E) in Hc. inversion Hc; subst. exact Hf.
  - destruct (handle f) as [fp|] eqn:Hh.
    + rewrite (close_open_stream os f fp w E Hh) in Hc.
      destruct (fst (fclose os fp w) =? 0); inversion Hc; subst.
      * intros _. reflexivity.
      * intro Hs. simpl in Hs. destruct (classify_not_Closed _ Hs).
    + rewrite (close_no_stream os f w E Hh) in Hc. inversion Hc; subst.
      intros _. reflexivity.
Qed.

(** [open] never leaves the object closed. *)
Lemma open_invariant (filename : string) (openMode : AccessMode)
    (f : File FILE) (w : W) :
  forall s f' w',
    open os filename openMode f w = Ret (s, f', w') ->
    currentStatus f' <> Closed /\ closed_has_no_stream f'.
Proof.
  intros s f' w' Ho.
  assert (Hn : currentStatus f' <> Closed);
    [|split; [exact Hn | intro Hs; contradiction]].
  rewrite open_unfold in Ho.
  destruct (after_close os f w) as [f0 w0].
  destruct (fopen os filename (fopen_mode openMode) w0) as [[fp|] w1].
  - cbv zeta in Ho.
    destruct openMode; try (inversion Ho; subst; discriminate).
    rewrite (setPosition_eq os 0 true
               (mkFile Ok (open_capability ReadWrite) (Some fp)) fp w1
               eq_refl (or_introl eq_refl)) in Ho; [|intros _; lia].
    inversion Ho; subst. simpl. apply seek_status_not_Closed.
  - rewrite setStatus_eq in Ho. inversion Ho; subst. simpl.
    apply classify_not_Closed.
Qed.
End Invariant.

(** ** The path queries *)

Section PathQueries.
Context {W : Type} (px : Posix W).

Lemma null_or_empty_cases (path : option string) :
  null_or_empty path = true -> path = None \/ path = Some EmptyString.
Proof.
  destruct path as [[|a s]|]; simpl; intro H;
    [right; reflexivity | discriminate | left; reflexivity].
Qed.

(** C8 (amended).  For a null or empty path, [dFileTouch], [getFileTimes],
    [isFile], [isDirectory] and [getFileSize] call nothing and return the
    failure value ([false], or 0 for [getFileSize]), the world and the time
    cells being left as they were.  [fileDelete] does so for a null path;
    an empty one it hands to [remove], and returns [false] with the world
    unchanged when [remove] refuses it.  [isSubDirectory] asks
    [isDirectory] about the concatenation of [pathParent], a slash and
    [pathSub]: it returns [false] when that concatenation is empty, which
    is the case for a null [pathParent], whose [NULL] ends the argument
    list. *)
Theorem path_queries_null_or_empty (w : W) :
  fileDelete px None w = (false, w) /\
  (forall r : Z,
      os_remove px EmptyString w = (r, w) -> r <> 0 ->
      fileDelete px (Some EmptyString) w = (false, w)) /\
  (forall path : option string,
      null_or_empty path = true ->
      dFileTouch px path w = (false, w) /\
      (forall c m : option Z, getFileTimes px path c m w = (false, c, m)) /\
      isFile px path w = false /\
      isDirectory px path w = false /\
      getFileSize px path w = 0) /\
  (forall (dStrcpyl : Z -> list (option string) -> string)
          (pathParent pathSub : option string),
      dStrcpyl MAX_MAC_PATH_LONG
        [pathParent; Some "/"%string; pathSub; None] = EmptyString ->
      isSubDirectory px dStrcpyl pathParent pathSub w = false) /\
  (forall pathSub : option string,
      isSubDirectory px ref_dStrcpyl None pathSub w = false).
Proof.
  split; [reflexivity|]. split.
  { intros r Hr Hne. unfold fileDelete. rewrite Hr.
    apply Z.eqb_neq in Hne. rewrite Hne. reflexivity. }
  split.
  { intros path Hp.
    destruct (null_or_empty_cases path Hp) as [-> | ->]; repeat split. }
  split.
  { intros dStrcpyl pathParent pathSub H. unfold isSubDirectory.
    rewrite H. reflexivity. }
  intro pathSub. reflexivity.
Qed.
End PathQueries.

(** [path_queries_null_or_empty] on the reference file system, with a
    directory [/usr] in it. *)
Lemma path_queries_null_or_empty_witness :
  let w := [("/usr"%string, true)] in
  fileDelete RefPosix.posix (Some EmptyString) w = (false, w) /\
  dFileTouch RefPosix.posix (Some EmptyString) w = (false, w) /\
  getFileSize RefPosix.posix None w = 0 /\
  isSubDirectory RefPosix.posix ref_dStrcpyl None (Some "usr"%string) w = false.
Proof.
  cbv zeta.
  destruct (path_queries_null_or_empty RefPosix.posix [("/usr"%string, true)])
    as (_ & Hdel & Hq & _ & Hsub).
  split; [apply (Hdel (-1)); [reflexivity | discriminate]|].
  split; [apply (Hq (Some EmptyString) eq_refl)|].
  split; [apply (Hq None eq_refl)|].
  apply Hsub.
Defined.

(** C8 as stated fails for [isSubDirectory]: with an empty [pathParent] it
    asks about [/usr], and with an empty [pathSub] about [usr/]; both are
    directories here and the answer is [true]. *)
Lemma isSubDirectory_empty_path_true :
  isSubDirectory RefPosix.posix ref_dStrcpyl (Some EmptyString)
    (Some "usr"%string) [("/usr"%string, true)] = true /\
  isSubDirectory RefPosix.posix ref_dStrcpyl (Some "usr"%string)
    (Some EmptyString) [("usr"%string, true)] = true.
Proof. split; reflexivity. Qed.

(** ** Strings *)

Lemma length_truncate (n : nat) (s : string) :
  String.length (truncate n s) = Nat.min n (String.length s).
Proof.
  revert s; induction n as [|n IH]; intros [|a s]; simpl; try reflexivity.
  rewrite IH. reflexivity.
Qed.

Lemma dStrrchr_lt (s : string) (c : ascii) (i : nat) :
  dStrrchr s c = Some i -> (i < String.length s)%nat.
Proof.
  revert i; induction s as [|a s IH]; simpl; intros i H; [discriminate|].
  destruct (dStrrchr s c) as [j|].
  - inversion H; subst. specialize (IH j eq_refl). lia.
  - destruct (Ascii.eqb a c); inversion H; subst. lia.
Qed.

Lemma dStrrchr_at_end (s : string) (c : ascii) (i : nat) :
  dStrrchr s c = Some i -> S i = String.length s -> last_char s = Some c.
Proof.
  revert i; induction s as [|a s IH]; simpl; intros i H Hl; [discriminate|].
  destruct (dStrrchr s c) as [j|] eqn:E.
  - inversion H; subst. injection Hl as Hl.
    specialize (IH j eq_refl Hl).
    destruct s; [discriminate | exact IH].
  - destruct (Ascii.eqb a c) eqn:Ea; inversion H; subst.
    apply Ascii.eqb_eq in Ea; subst a.
    destruct s; [reflexivity | discriminate].
Qed.

Lemma last_char_nonempty (s : string) (c : ascii) :
  last_char s = Some c -> (0 < String.length s)%nat.
Proof. destruct s; simpl; [discriminate | lia]. Qed.

Lemma has_trailing_slash_last (s : string) :
  has_trailing_slash s = true <-> last_char s = Some slash.
Proof.
  unfold has_trailing_slash. destruct (last_char s) as [c|].
  - rewrite Ascii.eqb_eq. split; congruence.
  - split; discriminate.
Qed.

(** The recursion of [createPath] is on a strictly shorter string. *)
Lemma parent_path_shorter (file parent : string) :
  parent_path file = Some parent ->
  (String.length parent < String.length file)%nat.
Proof.
  unfold parent_path, cut_trailing_slash, dStrlen.
  destruct (has_trailing_slash file) eqn:Ht.
  - apply has_trailing_slash_last in Ht.
    pose proof (last_char_nonempty _ _ Ht) as Hpos.
    destruct (dStrrchr (truncate (String.length file - 1) file) slash)
      as [[|i]|] eqn:E; try discriminate.
    intro H.
    assert (Hp : parent = truncate (S (S i))
                            (truncate (String.length file - 1) file))
      by congruence.
    rewrite Hp. apply dStrrchr_lt in E.
    rewrite length_truncate in E. rewrite !length_truncate. lia.
  - destruct (dStrrchr file slash) as [[|i]|] eqn:E; try discriminate.
    intro H.
    assert (Hp : parent = truncate (S (S i)) file) by congruence.
    rewrite Hp.
    pose proof (dStrrchr_lt _ _ _ E) as Hlt.
    rewrite length_truncate.
    destruct (Nat.eq_dec (S (S i)) (String.length file)) as [He|He].
    + apply (dStrrchr_at_end _ _ _ E) in He.
      apply has_trailing_slash_last in He. congruence.
    + lia.
Qed.

(** The argument of a recursive call ends in a slash: it is a directory
    path. *)
Lemma truncate_after_slash (s : string) (c : ascii) (i : nat) :
  dStrrchr s c = Some i -> last_char (truncate (S i) s) = Some c.
Proof.
  revert i; induction s as [|a s IH]; simpl; intros i H; [discriminate|].
  destruct (dStrrchr s c) as [j|] eqn:E.
  - inversion H; subst. specialize (IH j eq_refl).
    destruct s as [|b s]; [discriminate|].
    simpl in *. exact IH.
  - destruct (Ascii.eqb a c) eqn:Ea; inversion H; subst.
    apply Ascii.eqb_eq in Ea; subst a. destruct s; reflexivity.
Qed.

Lemma parent_path_trailing_slash (file parent : string) :
  parent_path file = Some parent -> has_trailing_slash parent = true.
Proof.
  unfold parent_path.
  destruct (dStrrchr (cut_trailing_slash file) slash) as [[|i]|] eqn:E;
    try discriminate.
  intro H.
  assert (Hp : parent = truncate (S (S i)) (cut_trailing_slash file))
    by congruence.
  rewrite Hp.
  apply has_trailing_slash_last. apply truncate_after_slash. exact E.
Qed.

(** ** Platform::createPath *)

Section CreatePathFacts.
Context {W : Type} (px : Posix W).

(** A budget above the length of the path is as good as any other. *)
Lemma createPath_fuel_irrelevant (fuel1 fuel2 : nat) (file : string) (w : W) :
  (String.length file < fuel1)%nat -> (String.length file < fuel2)%nat ->
  createPath_fuel px fuel1 file w = createPath_fuel px fuel2 file w.
Proof.
  revert fuel2 file w.
  induction fuel1 as [|k IH]; intros fuel2 file w H1 H2; [lia|].
  destruct fuel2 as [|k2]; [lia|]. simpl.
  destruct (is_some (os_stat px file w)); [reflexivity|].
  destruct file as [|a s]; [reflexivity|].
  destruct (parent_path (String a s)) as [parent|] eqn:E; [|reflexivity].
  apply parent_path_shorter in E.
  rewrite (IH k2 parent w); [reflexivity | lia | lia].
Qed.

(** [createPath] as the source has it, the recursive call being
    [createPath] itself. *)
Lemma createPath_unfold (file : string) (w : W) :
  createPath px file w =
  if is_some (os_stat px file w) then Value (true, w)
  else
    match file with
    | EmptyString => Undefined
    | _ =>
        match parent_path file with
        | Some parent =>
            match createPath px parent w with
            | Value (false, w') => Value (false, w')
            | Value (true, w') => Value (create_last px file w')
            | Undefined => Undefined
            | OutOfFuel => OutOfFuel
            end
        | None => Value (create_last px file w)
        end
    end.
Proof.
  unfold createPath at 1. unfold dStrlen. simpl.
  destruct (is_some (os_stat px file w)); [reflexivity|].
  destruct file as [|a s]; [reflexivity|].
  destruct (parent_path (String a s)) as [parent|] eqn:E; [|reflexivity].
  apply parent_path_shorter in E.
  unfold createPath, dStrlen.
  rewrite (createPath_fuel_irrelevant (String.length (String a s))
             (S (String.length parent)) parent w); [reflexivity | lia | lia].
Qed.

Lemma parent_path_nonempty (file parent : string) :
  parent_path file = Some parent -> parent <> EmptyString.
Proof.
  intros H ->. apply parent_path_trailing_slash in H. discriminate.
Qed.

(** [createPath] returns on every path that is not empty. *)
Lemma createPath_returns (file : string) (w : W) :
  file <> EmptyString -> exists b w', createPath px file w = Value (b, w').
Proof.
  remember (String.length file) as n eqn:Hn.
  revert file w Hn.
  induction n as [n IH] using lt_wf_ind; intros file w Hn Hne.
  rewrite createPath_unfold.
  destruct (is_some (os_stat px file w)); [eauto|].
  destruct file as [|a s]; [congruence|].
  destruct (parent_path (String a s)) as [parent|] eqn:E.
  - pose proof (parent_path_shorter _ _ E) as Hlt.
    destruct (IH (String.length parent) ltac:(lia) parent w eq_refl
                (parent_path_nonempty _ _ E)) as (b & w' & Hr).
    rewrite Hr. destruct b; [|eauto].
    destruct (create_last px (String a s) w') as [b' w'']. eauto.
  - destruct (create_last px (String a s) w) as [b' w'']. eauto.
Qed.
End CreatePathFacts.

Section CreatePathClaim.
Context {W : Type} (px : Posix W).

(** What the code relies on from the file system: a directory that
    [mkdir] made can be found by [stat], and [mkdir] removes nothing. *)
Hypothesis mkdir_creates :
  forall (p : string) (m : Z) (w w' : W),
    os_mkdir px p m w = (0, w') -> path_exists px p w' = true.
Hypothesis mkdir_keeps :
  forall (p q : string) (m r : Z) (w w' : W),
    os_mkdir px p m w = (r, w') ->
    path_exists px q w = true -> path_exists px q w' = true.

Lemma create_last_true (file : string) (w w' : W) :
  create_last px file w = (true, w') ->
  if has_trailing_slash file then os_mkdir px file 511 w = (0, w')
  else w' = w.
Proof.
  unfold create_last. destruct (has_trailing_slash file).
  - destruct (os_mkdir px file 511 w) as [r w1].
    destruct (r =? 0) eqn:E; simpl; intro H; inversion H; subst.
    apply Z.eqb_eq in E. subst. reflexivity.
  - intro H; inversion H; reflexivity.
Qed.

Lemma createPath_true_inv (file : string) (w w' : W) :
  createPath px file w = Value (true, w') ->
  (path_exists px file w = true /\ w' = w) \/
  (path_exists px file w = false /\
   match parent_path file with
   | Some parent =>
       exists w2, createPath px parent w = Value (true, w2) /\
                  create_last px file w2 = (true, w')
   | None => create_last px file w = (true, w')
   end).
Proof.
  rewrite createPath_unfold. unfold path_exists.
  destruct (is_some (os_stat px file w)).
  - intro H; inversion H. left. split; reflexivity.
  - right. split; [reflexivity|].
    destruct file as [|a s]; [discriminate|].
    destruct (parent_path (String a s)) as [parent|].
    + destruct (createPath px parent w) as [[[|] w2]| |]; try discriminate.
      exists w2. split; [reflexivity | congruence].
    + congruence.
Qed.

Lemma createPath_ensures (n : nat) :
  forall (file : string) (w w' : W),
    String.length file = n ->
    createPath px file w = Value (true, w') ->
    ((path_exists px file w = true /\ w' = w) \/
     ((forall parent, parent_path file = Some parent ->
                      path_exists px parent w' = true) /\
      (has_trailing_slash file = true -> path_exists px file w' = true))) /\
    createPath px file w' = Value (true, w').
Proof.
  induction n as [n IH] using lt_wf_ind; intros file w w' Hn Hrun.
  destruct (createPath_true_inv file w w' Hrun) as [[He ->] | [Hne Hrec]].
  { split; [left; split; [exact He | reflexivity] | exact Hrun]. }
  destruct (parent_path file) as [parent|] eqn:Ep.
  - destruct Hrec as (w2 & Hp & Hlast).
    pose proof (parent_path_shorter _ _ Ep) as Hlt.
    destruct (IH (String.length parent) ltac:(lia) parent w w2 eq_refl Hp)
      as [Hanc Hidem].
    assert (Hpe : path_exists px parent w2 = true).
    { destruct Hanc as [[He ->] | [_ Hd]]; [exact He|].
      apply Hd. exact (parent_path_trailing_slash _ _ Ep). }
    pose proof (create_last_true _ _ _ Hlast) as Hcl.
    destruct (has_trailing_slash file) eqn:Ht.
    + assert (Hfe : path_exists px file w' = true)
        by exact (mkdir_creates _ _ _ _ Hcl).
      split.
      * right. split; [|intros _; exact Hfe].
        intros q Hq. injection Hq as <-.
        exact (mkdir_keeps _ _ _ _ _ _ Hcl Hpe).
      * rewrite createPath_unfold. unfold path_exists in Hfe.
        rewrite Hfe. reflexivity.
    + subst w'. split.
      * right. split; [|discriminate].
        intros q Hq. injection Hq as <-. exact Hpe.
      * rewrite createPath_unfold.
        destruct (is_some (os_stat px file w2)); [reflexivity|].
        destruct file as [|a s]; [discriminate|].
        rewrite Ep, Hidem, Hlast. reflexivity.
  - pose proof (create_last_true _ _ _ Hrec) as Hcl.
    destruct (has_trailing_slash file) eqn:Ht.
    + assert (Hfe : path_exists px file w' = true)
        by exact (mkdir_creates _ _ _ _ Hcl).
      split.
      * right. split; [discriminate | intros _; exact Hfe].
      * rewrite createPath_unfold. unfold path_exists in Hfe.
        rewrite Hfe. reflexivity.
    + subst w'. split; [|exact Hrun].
      right. split; discriminate.
Qed.
Lemma create_last_keeps (file x : string) (b : bool) (w w' : W) :
  create_last px file w = (b, w') ->
  path_exists px x w = true -> path_exists px x w' = true.
Proof.
  unfold create_last. destruct (has_trailing_slash file).
  - destruct (os_mkdir px file 511 w) as [r w1] eqn:E.
    destruct (negb (r =? 0)); intro H; inversion H; subst;
      exact (mkdir_keeps _ _ _ _ _ _ E).
  - intro H; inversion H; subst. exact (fun H => H).
Qed.

(** [createPath] removes nothing. *)
Lemma createPath_keeps (n : nat) :
  forall (file x : string) (b : bool) (w w' : W),
    String.length file = n ->
    createPath px file w = Value (b, w') ->
    path_exists px x w = true -> path_exists px x w' = true.
Proof.
  induction n as [n IH] using lt_wf_ind; intros file x b w w' Hn Hrun Hx.
  rewrite createPath_unfold in Hrun.
  destruct (is_some (os_stat px file w)); [inversion Hrun; subst; exact Hx|].
  destruct file as [|a s]; [discriminate|].
  destruct (parent_path (String a s)) as [parent|] eqn:Ep.
  - pose proof (parent_path_shorter _ _ Ep) as Hlt.
    destruct (createPath px parent w) as [[[|] w2]| |] eqn:Hp;
      try discriminate.
    + assert (Hx2 : path_exists px x w2 = true)
        by exact (IH (String.length parent) ltac:(lia) parent x true w w2 eq_refl Hp Hx).
      destruct (create_last px (String a s) w2) as [b' w3] eqn:Hl.
      inversion Hrun; subst. exact (create_last_keeps _ _ _ _ _ Hl Hx2).
    + inversion Hrun; subst.
      exact (IH (String.length parent) ltac:(lia) parent x false w w' eq_refl Hp Hx).
  - destruct (create_last px (String a s) w) as [b' w3] eqn:Hl.
    inversion Hrun; subst. exact (create_last_keeps _ _ _ _ _ Hl Hx).
Qed.

Lemma ancestor_inv (file parent q : string) :
  ancestor q file -> parent_path file = Some parent ->
  q = parent \/ ancestor q parent.
Proof.
  intros Ha Ep. inversion Ha; subst.
  - left. congruence.
  - right. congruence.
Qed.

Lemma ancestors_of_existing (w : W) (file q : string) :
  parents_exist px w -> ancestor q file ->
  path_exists px file w = true -> path_exists px q w = true.
Proof.
  intros Hw Ha. induction Ha as [file p Hp | file p q Hp Ha IH]; intro He.
  - exact (Hw file p He Hp).
  - apply IH. exact (Hw file p He Hp).
Qed.

Lemma createPath_ancestors (n : nat) :
  forall (file q : string) (w w' : W),
    String.length file = n ->
    parents_exist px w ->
    createPath px file w = Value (true, w') ->
    ancestor q file -> path_exists px q w' = true.
Proof.
  induction n as [n IH] using lt_wf_ind; intros file q w w' Hn Hw Hrun Ha.
  destruct (createPath_true_inv file w w' Hrun) as [[He ->] | [Hne Hrec]].
  { exact (ancestors_of_existing w file q Hw Ha He). }
  destruct (parent_path file) as [parent|] eqn:Ep.
  - destruct Hrec as (w2 & Hp & Hlast).
    pose proof (parent_path_shorter _ _ Ep) as Hlt.
    assert (Hq2 : path_exists px q w2 = true).
    { destruct (ancestor_inv _ _ _ Ha Ep) as [-> | Hqp].
      - destruct (createPath_ensures _ parent w w2 eq_refl Hp)
          as [[[He ->] | [_ Hd]] _]; [exact He|].
        apply Hd. exact (parent_path_trailing_slash _ _ Ep).
      - exact (IH (String.length parent) ltac:(lia) parent q w w2 eq_refl
                 Hw Hp Hqp). }
    exact (create_last_keeps _ _ _ _ _ Hlast Hq2).
  - inversion Ha; congruence.
Qed.
Lemma to_make_fuel_irrelevant (fuel1 fuel2 : nat) (file : string) (w : W) :
  (String.length file < fuel1)%nat -> (String.length file < fuel2)%nat ->
  to_make_fuel px fuel1 file w = to_make_fuel px fuel2 file w.
Proof.
  revert fuel2 file.
  induction fuel1 as [|k IH]; intros fuel2 file H1 H2; [lia|].
  destruct fuel2 as [|k2]; [lia|]. simpl.
  destruct (path_exists px file w); [reflexivity|].
  destruct (parent_path file) as [parent|] eqn:E; [|reflexivity].
  apply parent_path_shorter in E.
  rewrite (IH k2 parent); [reflexivity | lia | lia].
Qed.

Lemma to_make_unfold (file : string) (w : W) :
  to_make px file w =
  if path_exists px file w then []
  else
    (match parent_path file with
     | Some parent => to_make px parent w
     | None => []
     end ++ (if has_trailing_slash file then [file] else []))%list.
Proof.
  unfold to_make at 1. unfold dStrlen. simpl.
  destruct (path_exists px file w); [reflexivity|].
  destruct (parent_path file) as [parent|] eqn:E; [|reflexivity].
  apply parent_path_shorter in E. unfold to_make, dStrlen.
  rewrite (to_make_fuel_irrelevant (String.length file)
             (S (String.length parent)) parent w); [reflexivity | lia | lia].
Qed.

Lemma make_dirs_app (l1 l2 : list string) (w : W) :
  make_dirs px (l1 ++ l2) w =
  let (b, w1) := make_dirs px l1 w in
  if b then make_dirs px l2 w1 else (false, w1).
Proof.
  revert w; induction l1 as [|d l1 IH]; intro w; [reflexivity|].
  simpl. destruct (os_mkdir px d 511 w) as [r w1].
  destruct (negb (r =? 0)); [reflexivity | apply IH].
Qed.

Lemma create_last_make_dirs (file : string) (w : W) :
  create_last px file w =
  make_dirs px (if has_trailing_slash file then [file] else []) w.
Proof.
  unfold create_last. destruct (has_trailing_slash file); [|reflexivity].
  simpl. destruct (os_mkdir px file 511 w) as [r w1].
  destruct (negb (r =? 0)); reflexivity.
Qed.

(** [createPath] is the run of [mkdir] over what it has to make. *)
Lemma createPath_make_dirs (n : nat) :
  forall (file : string) (w : W),
    String.length file = n -> file <> EmptyString ->
    createPath px file w = Value (make_dirs px (to_make px file w) w).
Proof.
  induction n as [n IH] using lt_wf_ind; intros file w Hn Hne.
  rewrite createPath_unfold, to_make_unfold. unfold path_exists.
  destruct (is_some (os_stat px file w)); [reflexivity|].
  destruct file as [|a s]; [congruence|].
  destruct (parent_path (String a s)) as [parent|] eqn:Ep.
  - pose proof (parent_path_shorter _ _ Ep) as Hlt.
    rewrite (IH (String.length parent) ltac:(lia) parent w eq_refl
               (parent_path_nonempty _ _ Ep)).
    rewrite make_dirs_app.
    destruct (make_dirs px (to_make px parent w) w) as [[|] w1];
      [|reflexivity].
    rewrite create_last_make_dirs. reflexivity.
  - rewrite create_last_make_dirs. reflexivity.
Qed.

Lemma make_dirs_true_exist (dirs : list string) :
  forall (w w' : W),
    make_dirs px dirs w = (true, w') ->
    forall d, In d dirs -> path_exists px d w' = true.
Proof.
  induction dirs as [|d0 dirs IH]; intros w w' Hrun d Hin; [contradiction|].
  simpl in Hrun. destruct (os_mkdir px d0 511 w) as [r w1] eqn:Em.
  destruct (r =? 0) eqn:Er; simpl in Hrun; [|discriminate].
  apply Z.eqb_eq in Er. subst r.
  destruct Hin as [<- | Hin].
  - pose proof (mkdir_creates _ _ _ _ Em) as Hd. clear IH Em.
    revert w1 Hrun Hd. induction dirs as [|d1 dirs IHd]; intros w1 Hrun Hd.
    + inversion Hrun; subst. exact Hd.
    + simpl in Hrun. destruct (os_mkdir px d1 511 w1) as [r2 w2] eqn:Em2.
      destruct (negb (r2 =? 0)); [discriminate|].
      apply (IHd w2 Hrun). exact (mkdir_keeps _ _ _ _ _ _ Em2 Hd).
  - exact (IH w1 w' Hrun d Hin).
Qed.

(** C9 (amended).  On a file system where [mkdir] makes what [stat] then
    finds and removes nothing, and for every non-empty path: [createPath]
    returns [true] at once, changing nothing, when the path exists;
    otherwise what it does is the run of [mkdir] over the directories it
    has to make, which are those it has to make for the parent path (the
    input without its trailing slash, cut just after its last slash) and
    then, for an input with a trailing slash, the path itself; it returns
    [true] exactly when none of these [mkdir] fails, and stops at the
    first that does.  After it returned [true], every directory it had to
    make exists, a directory path exists, every ancestor of the path exists
    if the file system it started from had the parents of what existed,
    and a second call returns [true] and changes nothing. *)
Theorem createPath_makes_the_missing_directories (file : string) (w : W) :
  file <> EmptyString ->
  (path_exists px file w = true -> createPath px file w = Value (true, w)) /\
  createPath px file w = Value (make_dirs px (to_make px file w) w) /\
  to_make px file w =
  (if path_exists px file w then []
   else
     (match parent_path file with
      | Some parent => to_make px parent w
      | None => []
      end ++ (if has_trailing_slash file then [file] else []))%list) /\
  (forall w' : W,
      createPath px file w = Value (true, w') ->
      (forall d, In d (to_make px file w) -> path_exists px d w' = true) /\
      (has_trailing_slash file = true -> path_exists px file w' = true) /\
      (parents_exist px w ->
       forall q, ancestor q file -> path_exists px q w' = true) /\
      createPath px file w' = Value (true, w')).
Proof.
  intro Hne. split.
  { intro He. rewrite createPath_unfold. unfold path_exists in He.
    rewrite He. reflexivity. }
  split; [exact (createPath_make_dirs _ file w eq_refl Hne)|].
  split; [apply to_make_unfold|].
  intros w' Hrun.
  destruct (createPath_ensures _ file w w' eq_refl Hrun) as [Hens Hidem].
  split.
  { rewrite (createPath_make_dirs _ file w eq_refl Hne) in Hrun.
    injection Hrun as Hrun. exact (make_dirs_true_exist _ w w' Hrun). }
  split.
  { intro Ht. destruct Hens as [[He ->] | [_ Hd]]; [exact He | exact (Hd Ht)]. }
  split; [|exact Hidem].
  intros Hw q Ha.
  exact (createPath_ancestors _ file q w w' eq_refl Hw Hrun Ha).
Qed.
End CreatePathClaim.

(** The reference file system meets the two assumptions. *)
Lemma RefPosix_lookup_app_some (p : string) (d : bool)
    (w l : RefPosix.world) :
  RefPosix.lookup p w = Some d -> RefPosix.lookup p (w ++ l) = Some d.
Proof.
  induction w as [|[q e] w IH]; simpl; [discriminate|].
  destruct (String.eqb p q); [exact (fun H => H) | exact IH].
Qed.

Lemma RefPosix_lookup_app_none (p : string) (d : bool) (w : RefPosix.world) :
  RefPosix.lookup p w = None -> RefPosix.lookup p (w ++ [(p, d)]) = Some d.
Proof.
  induction w as [|[q e] w IH]; simpl.
  - rewrite String.eqb_refl. reflexivity.
  - destruct (String.eqb p q); [discriminate | exact IH].
Qed.

Lemma RefPosix_mkdir_creates (p : string) (m : Z) (w w' : RefPosix.world) :
  os_mkdir RefPosix.posix p m w = (0, w') ->
  path_exists RefPosix.posix p w' = true.
Proof.
  unfold path_exists; simpl. unfold RefPosix.ref_mkdir, RefPosix.ref_stat.
  destruct p as [|a s]; [discriminate|].
  destruct (RefPosix.norm (String a s)) as [|b t] eqn:En; [discriminate|].
  destruct (String.eqb (String b t) "/") eqn:Er; [discriminate|].
  destruct (RefPosix.lookup (String b t) w) eqn:El; [discriminate|].
  destruct (RefPosix.is_dir (RefPosix.dirname (String b t)) w);
    [|discriminate].
  intro H; inversion H; subst.
  rewrite (RefPosix_lookup_app_none _ true _ El). reflexivity.
Qed.

Lemma RefPosix_mkdir_keeps (p q : string) (m r : Z) (w w' : RefPosix.world) :
  os_mkdir RefPosix.posix p m w = (r, w') ->
  path_exists RefPosix.posix q w = true ->
  path_exists RefPosix.posix q w' = true.
Proof.
  unfold path_exists; simpl. unfold RefPosix.ref_mkdir, RefPosix.ref_stat.
  intros Hm Hq.
  assert (Hw : w' = w \/ exists e, w' = (w ++ [e])%list).
  { destruct (RefPosix.norm p) as [|a s];
      [inversion Hm; left; reflexivity|].
    destruct (String.eqb (String a s) "/");
      [inversion Hm; left; reflexivity|].
    destruct (RefPosix.lookup (String a s) w);
      [inversion Hm; left; reflexivity|].
    destruct (RefPosix.is_dir (RefPosix.dirname (String a s)) w);
      inversion Hm; [right; eexists; reflexivity | left; reflexivity]. }
  destruct Hw as [-> | [e ->]]; [exact Hq|].
  destruct q as [|a s]; [simpl in Hq; discriminate Hq|].
  destruct (String.eqb (RefPosix.norm (String a s)) "/"); [reflexivity|].
  destruct (RefPosix.lookup (RefPosix.norm (String a s)) w) as [d|] eqn:El;
    [|discriminate].
  rewrite (RefPosix_lookup_app_some _ d _ _ El). exact Hq.
Qed.

(** [createPath_makes_the_missing_directories] on an empty root:
    [createPath("a/b/c/")] has [a/], [a/b/] and [a/b/c/] to make, makes
    them, and a second call changes nothing. *)
Lemma createPath_makes_the_missing_directories_witness :
  let w' := [("a"%string, true); ("a/b"%string, true); ("a/b/c"%string, true)] in
  createPath RefPosix.posix "a/b/c/" [] = Value (true, w') /\
  to_make RefPosix.posix "a/b/c/" [] =
  ["a/"%string; "a/b/"%string; "a/b/c/"%string] /\
  path_exists RefPosix.posix "a/" w' = true /\
  path_exists RefPosix.posix "a/b/" w' = true /\
  path_exists RefPosix.posix "a/b/c/" w' = true /\
  createPath RefPosix.posix "a/b/c/" w' = Value (true, w').
Proof.
  cbv zeta.
  destruct (createPath_makes_the_missing_directories RefPosix.posix
              RefPosix_mkdir_creates RefPosix_mkdir_keeps "a/b/c/" []
              ltac:(discriminate))
    as (_ & Hrun & _ & H).
  destruct (H [("a"%string, true); ("a/b"%string, true);
               ("a/b/c"%string, true)] Hrun) as (Hmade & Hd & _ & Hi).
  split; [exact Hrun|].
  split; [reflexivity|].
  split; [apply Hmade; simpl; tauto|].
  split; [apply Hmade; simpl; tauto|].
  split; [apply Hd; reflexivity | exact Hi].
Defined.

(** C9 as stated fails: on an empty root [createPath("a//b/")] makes [a],
    is then refused [a//], which is [a] again, and returns [false] without
    making [b]. *)
Lemma createPath_double_slash_fails :
  createPath RefPosix.posix "a//b/" [] = Value (false, [("a"%string, true)]) /\
  path_exists RefPosix.posix "a//b/" [("a"%string, true)] = false.
Proof. split; reflexivity. Qed.

(** ** The directory walks *)

Section WalkFacts.
Variable isExcludedDirectory : string -> bool.
Variable StringTable_insert : string -> string.

Abbreviation recurseDD := (recurseDumpDirectories isExcludedDirectory
                         StringTable_insert).
Abbreviation dump_es := (dump_entries isExcludedDirectory StringTable_insert).
Abbreviation good := (isGoodDirectory isExcludedDirectory).
Abbreviation push := (pushed StringTable_insert).

Lemma recurseDD_Dir (basePath path : string)
    (entries : list (dirent * dirstream)) (vec : list string) (depth : Z)
    (noBasePath : bool) :
  recurseDD basePath path (Dir entries) vec depth noBasePath =
  (true, dump_es basePath path depth noBasePath entries vec).
Proof. reflexivity. Qed.

Lemma dump_es_nil (basePath path : string) (depth : Z) (noBasePath : bool)
    (vec : list string) :
  dump_es basePath path depth noBasePath [] vec = vec.
Proof. reflexivity. Qed.

Lemma dump_es_cons (basePath path : string) (depth : Z) (noBasePath : bool)
    (entry : dirent) (sub : dirstream) (rest : list (dirent * dirstream))
    (vec : list string) :
  dump_es basePath path depth noBasePath ((entry, sub) :: rest) vec =
  if negb (good entry)
  then dump_es basePath path depth noBasePath rest vec
  else
    let newpath := entry_path path entry in
    let vec1 := (vec ++ [push basePath newpath noBasePath])%list in
    dump_es basePath path depth noBasePath rest
      (if negb (depth =? 0)
       then snd (recurseDD basePath newpath sub vec1 (S32 (depth - 1))
                   noBasePath)
       else vec1).
Proof. reflexivity. Qed.

Lemma dump_es_app (basePath path : string) (depth : Z) (noBasePath : bool)
    (es1 es2 : list (dirent * dirstream)) (vec : list string) :
  dump_es basePath path depth noBasePath (es1 ++ es2) vec =
  dump_es basePath path depth noBasePath es2
    (dump_es basePath path depth noBasePath es1 vec).
Proof.
  revert vec; induction es1 as [|[entry sub] es1 IH]; intro vec;
    [reflexivity|].
  rewrite <- app_comm_cons, !dump_es_cons.
  destruct (negb (good entry)); cbv zeta; apply IH.
Qed.
Lemma get_last_char (s : string) :
  s <> EmptyString -> String.get (String.length s - 1) s = last_char s.
Proof.
  induction s as [|a s IH]; [congruence|]. intros _.
  destruct s as [|b s]; [reflexivity|].
  specialize (IH ltac:(discriminate)).
  simpl in *. rewrite Nat.sub_0_r in IH. exact IH.
Qed.

(** The test of [dumpPath] for a trailing slash, on a non-empty path. *)
Lemma dumpPath_trailing_slash (path : string) :
  path <> EmptyString ->
  Ascii.eqb (buffer_char path (S (dStrlen path) - 2)) slash =
  has_trailing_slash path.
Proof.
  intro Hne. unfold buffer_char, has_trailing_slash, dStrlen.
  replace (S (String.length path) - 2)%nat with (String.length path - 1)%nat
    by lia.
  rewrite (get_last_char path Hne).
  destruct (last_char path) as [c|] eqn:E; [reflexivity|].
  destruct path as [|a s]; [congruence|].
  exfalso. clear Hne. revert a E.
  induction s as [|b s IH]; intros a E; [discriminate|].
  exact (IH b E).
Qed.

Lemma truncate_last_char (s : string) (c : ascii) :
  last_char s = Some c ->
  s = (truncate (String.length s - 1) s ++ String c EmptyString)%string.
Proof.
  induction s as [|a s IH]; [discriminate|].
  destruct s as [|b s]; intro E.
  - simpl in E. injection E as ->. reflexivity.
  - specialize (IH E).
    replace (String.length (String a (String b s)) - 1)%nat
      with (S (String.length (String b s) - 1)) by (simpl; lia).
    change (truncate (S (String.length (String b s) - 1))
              (String a (String b s)))
      with (String a (truncate (String.length (String b s) - 1)
                        (String b s))).
    change (String a (String b s) =
            String a (truncate (String.length (String b s) - 1) (String b s)
                      ++ String c EmptyString)).
    f_equal. exact IH.
Qed.

Lemma cut_trailing_slash_restores (path : string) :
  has_trailing_slash path = true ->
  path = (cut_trailing_slash path ++ "/")%string.
Proof.
  unfold cut_trailing_slash. intro Ht. rewrite Ht.
  unfold has_trailing_slash in Ht.
  destruct (last_char path) as [c|] eqn:E; [|discriminate].
  apply Ascii.eqb_eq in Ht. subst c.
  exact (truncate_last_char path slash E).
Qed.

Section DumpPathFacts.
Variable opendir : string -> option (list dirent).
Variable W : Type.
Variable px : Posix W.
Variable w : W.

Abbreviation recurseDP :=
  (recurseDumpPath_depth isExcludedDirectory StringTable_insert opendir px w).

(** A call of [recurseDumpPath] that is defined leaves the vector as it
    is: it gives [false] where the directory does not open, [true] where
    the loop passes every entry, and is undefined otherwise. *)
Lemma recurseDP_eq (depth : nat) (curPath : string) (vec : list FileInfo) :
  recurseDP depth curPath vec =
  match opendir curPath with
  | None => Value (false, vec)
  | Some es =>
      if passes_entries isExcludedDirectory depth es
      then Value (true, vec) else Undefined
  end.
Proof.
  destruct depth as [|depth]; simpl; destruct (opendir curPath) as [es|];
    try reflexivity.
  - induction es as [|e es IH]; [reflexivity|].
    simpl. destruct (d_type e =? DT_DIR); [exact IH | reflexivity].
  - induction es as [|e es IH]; [reflexivity|].
    simpl. destruct (d_type e =? DT_DIR); [|reflexivity].
    destruct (isGoodDirectory isExcludedDirectory e); simpl;
      [reflexivity | exact IH].
Qed.

(** [dumpPath] on a non-empty path walks the path without its trailing
    slash. *)
Lemma dumpPath_eq (path : string) (vec : list FileInfo) (depth : Z) :
  path <> EmptyString ->
  dumpPath isExcludedDirectory StringTable_insert opendir px w path vec
    depth =
  recurseDumpPath isExcludedDirectory StringTable_insert opendir px w
    (cut_trailing_slash path) vec (U32 depth).
Proof.
  intro Hne. unfold dumpPath.
  destruct path as [|a s] eqn:Ep; [congruence|]. rewrite <- Ep in *.
  rewrite (dumpPath_trailing_slash path Hne).
  replace (S (dStrlen path) - 2)%nat with (dStrlen path - 1)%nat by lia.
  reflexivity.
Qed.
End DumpPathFacts.
End WalkFacts.

(** ** Platform::dumpDirectories *)

Section DumpDirectoriesFacts.
Variable isExcludedDirectory : string -> bool.
Variable StringTable_insert : string -> string.

Abbreviation recurseDD' := (recurseDumpDirectories isExcludedDirectory
                              StringTable_insert).
Abbreviation dump_es' := (dump_entries isExcludedDirectory StringTable_insert).
Abbreviation good' := (isGoodDirectory isExcludedDirectory).
Abbreviation push' := (pushed StringTable_insert).

Lemma get_length_None (s : string) : String.get (String.length s) s = None.
Proof. induction s as [|a s IH]; [reflexivity | exact IH]. Qed.

(** The trailing-slash test of [dumpDirectories] never fires. *)
Lemma dumpDirectories_eq (path : string) (root : dirstream)
    (vec : list string) (depth : Z) (noBasePath : bool) :
  dumpDirectories isExcludedDirectory StringTable_insert path root vec depth
    noBasePath =
  recurseDD' path "" root
    (if noBasePath then vec else (vec ++ [StringTable_insert path])%list)
    depth noBasePath.
Proof.
  unfold dumpDirectories, buffer_char, dStrlen.
  replace (S (String.length path) - 1)%nat with (String.length path) by lia.
  rewrite get_length_None. simpl. destruct noBasePath; reflexivity.
Qed.

(** With depth 0 the loop appends the good entries and nothing else. *)
Lemma dump_es_depth_0 (basePath path : string) (noBasePath : bool)
    (es : list (dirent * dirstream)) (vec : list string) :
  dump_es' basePath path 0 noBasePath es vec =
  (vec ++ map (fun e => push' basePath (entry_path path e) noBasePath)
            (filter good' (map fst es)))%list.
Proof.
  revert vec; induction es as [|[e sub] es IH]; intro vec.
  - rewrite dump_es_nil. simpl. rewrite app_nil_r. reflexivity.
  - rewrite dump_es_cons. simpl. destruct (good' e); simpl.
    + rewrite IH, <- app_assoc. reflexivity.
    + apply IH.
Qed.
Lemma good_inv (e : dirent) :
  good' e = true ->
  d_type e = DT_DIR /\ d_name e <> "."%string /\ d_name e <> ".."%string /\
  isExcludedDirectory (d_name e) = false.
Proof.
  unfold isGoodDirectory. rewrite !andb_true_iff, !negb_true_iff.
  intros [[[Ht Hd] Hdd] He]. apply Z.eqb_eq in Ht.
  apply String.eqb_neq in Hd. apply String.eqb_neq in Hdd. auto.
Qed.

(** A walk only appends, and what it appends is the entry of a directory
    nested below the one it walks, reached through good entries only. *)
Lemma recurseDD_appends (basePath : string) (noBasePath : bool)
    (dir : dirstream) :
  forall (path : string) (vec : list string) (depth : Z),
  exists added : list string,
    snd (recurseDD' basePath path dir vec depth noBasePath) =
    (vec ++ map (fun p => push' basePath p noBasePath) added)%list /\
    Forall (nested good' path dir) added.
Proof.
  induction dir as [|es IH] using dirstream_rect'; intros path vec depth.
  - exists []. simpl. rewrite app_nil_r. auto.
  - rewrite recurseDD_Dir. simpl.
    assert (Hloop : forall es' : list (dirent * dirstream),
               incl es' es ->
               forall vec : list string,
               exists added : list string,
                 dump_es' basePath path depth noBasePath es' vec =
                 (vec ++ map (fun p => push' basePath p noBasePath) added)%list /\
                 Forall (nested good' path (Dir es)) added).
    { induction es' as [|[e sub] es' IHes]; intros Hincl vec0.
      - exists []. rewrite dump_es_nil. simpl. rewrite app_nil_r. auto.
      - assert (Hin : In (e, sub) es) by (apply Hincl; left; reflexivity).
        assert (Hrest : incl es' es)
          by (intros x Hx; apply Hincl; right; exact Hx).
        rewrite dump_es_cons.
        destruct (good' e) eqn:Hg; simpl; [|exact (IHes Hrest vec0)].
        pose proof (proj1 (Forall_forall _ _) IH (e, sub) Hin) as Hsub.
        simpl in Hsub.
        destruct (negb (depth =? 0)).
        + destruct (Hsub (entry_path path e)
                      (vec0 ++ [push' basePath (entry_path path e)
                                  noBasePath])%list
                      (S32 (depth - 1))) as (a1 & E1 & F1).
          rewrite E1.
          destruct (IHes Hrest
                      ((vec0 ++ [push' basePath (entry_path path e)
                                   noBasePath]) ++
                       map (fun p => push' basePath p noBasePath) a1)%list)
            as (a2 & E2 & F2).
          rewrite E2.
          exists ([entry_path path e] ++ a1 ++ a2)%list.
          split; [rewrite !map_app, <- !app_assoc; reflexivity|].
          apply Forall_app. split.
          { constructor; [|constructor].
            exact (nested_entry good' path es e sub Hin Hg). }
          apply Forall_app. split; [|exact F2].
          apply Forall_forall. intros p Hp.
          apply (nested_below good' path es e sub p Hin Hg).
          exact (proj1 (Forall_forall _ _) F1 p Hp).
        + destruct (IHes Hrest
                      (vec0 ++ [push' basePath (entry_path path e)
                                  noBasePath])%list) as (a2 & E2 & F2).
          rewrite E2.
          exists ([entry_path path e] ++ a2)%list.
          split; [rewrite !map_app, <- !app_assoc; reflexivity|].
          apply Forall_app. split; [|exact F2].
          constructor; [|constructor].
          exact (nested_entry good' path es e sub Hin Hg). }
    exact (Hloop es (incl_refl es) vec).
Qed.
Lemma recurseDD_keeps (basePath path : string) (noBasePath : bool)
    (dir : dirstream) (vec : list string) (depth : Z) (x : string) :
  In x vec -> In x (snd (recurseDD' basePath path dir vec depth noBasePath)).
Proof.
  intro H.
  destruct (recurseDD_appends basePath noBasePath dir path vec depth)
    as (added & E & _).
  rewrite E. apply in_or_app. left. exact H.
Qed.

Lemma dump_es_keeps (basePath path : string) (noBasePath : bool)
    (es : list (dirent * dirstream)) (vec : list string) (depth : Z)
    (x : string) :
  In x vec -> In x (dump_es' basePath path depth noBasePath es vec).
Proof.
  intro H.
  exact (recurseDD_keeps basePath path noBasePath (Dir es) vec depth x H).
Qed.

Lemma height_sub (es : list (dirent * dirstream)) (e : dirent)
    (sub : dirstream) :
  In (e, sub) es -> (height sub < height (Dir es))%nat.
Proof.
  simpl. induction es as [|[e' sub'] es IH]; simpl; [contradiction|].
  intros [H | H].
  - inversion H; subst. lia.
  - specialize (IH H). lia.
Qed.

Lemma S32_small (z : Z) : - 2 ^ 31 <= z < 2 ^ 31 -> S32 z = z.
Proof.
  intro H. unfold S32. rewrite Z.mod_small; lia.
Qed.

(** With a negative depth that does not run out of the [S32] range on the
    way down, the walk reaches every nested directory. *)
Lemma recurseDD_reaches (basePath : string) (noBasePath : bool)
    (path : string) (dir : dirstream) (p : string) :
  nested good' path dir p ->
  forall (vec : list string) (depth : Z),
    depth < 0 -> - 2 ^ 31 - 1 <= depth - Z.of_nat (height dir) ->
    In (push' basePath p noBasePath)
       (snd (recurseDD' basePath path dir vec depth noBasePath)).
Proof.
  induction 1 as [path es e sub Hin Hg | path es e sub p Hin Hg Hn IH];
    intros vec depth Hneg Hrange;
    rewrite recurseDD_Dir; simpl;
    destruct (in_split _ _ Hin) as (pre & post & ->);
    rewrite dump_es_app, dump_es_cons, Hg; simpl;
    apply dump_es_keeps.
  - destruct (negb (depth =? 0)).
    + apply recurseDD_keeps. apply in_or_app. right. left. reflexivity.
    + apply in_or_app. right. left. reflexivity.
  - replace (depth =? 0) with false by (symmetry; apply Z.eqb_neq; lia).
    simpl. pose proof (height_sub _ _ _ Hin) as Hh.
    destruct sub as [|es'].
    + inversion Hn.
    + assert (Hpos : (1 <= height (Dir es'))%nat) by (simpl; lia).
      rewrite S32_small by lia.
      apply IH; lia.
Qed.
End DumpDirectoriesFacts.

Local Open Scope string_scope.

(** C4 (amended).  [dumpDirectories] first appends the interned root path
    when [noBasePath] is false, and nothing when it is true.  After that,
    with depth 0 it appends one entry for each immediate subdirectory of
    the root that is none of [.], [..] and the excluded names, in the
    order of [readdir], and nothing else; with depth [-1], on a tree of at
    most [2^31] levels, it appends every nested directory that is reached
    through such entries; and with every depth each entry it appends is
    that of a directory nested below the root, itself none of [.], [..]
    and the excluded names and reached through such entries only, and is
    the interned path relative to the root when [noBasePath] is true and
    the interned [root/relative path] otherwise. *)
Theorem dumpDirectories_walk
    (isExcludedDirectory : string -> bool)
    (StringTable_insert : string -> string)
    (path : string) (root : dirstream) (vec : list string)
    (noBasePath : bool) :
  let base :=
    if noBasePath then vec else (vec ++ [StringTable_insert path])%list in
  (forall entries : list (dirent * dirstream),
      root = Dir entries ->
      dumpDirectories isExcludedDirectory StringTable_insert path root vec 0
        noBasePath =
      (true,
       (base ++
        map (fun e => pushed StringTable_insert path (d_name e) noBasePath)
          (filter (isGoodDirectory isExcludedDirectory) (map fst entries)))%list))
  /\
  (Z.of_nat (height root) <= 2 ^ 31 ->
   forall p : string,
     nested (isGoodDirectory isExcludedDirectory) "" root p ->
     In (pushed StringTable_insert path p noBasePath)
        (snd (dumpDirectories isExcludedDirectory StringTable_insert path
                root vec (-1) noBasePath))) /\
  (forall depth : Z,
      exists added : list string,
        snd (dumpDirectories isExcludedDirectory StringTable_insert path root
               vec depth noBasePath) =
        (base ++
         map (fun p => pushed StringTable_insert path p noBasePath) added)%list
        /\
        Forall (nested (isGoodDirectory isExcludedDirectory) "" root) added).
Proof.
  cbv zeta. split; [|split].
  - intros entries ->. rewrite dumpDirectories_eq, recurseDD_Dir.
    rewrite dump_es_depth_0. reflexivity.
  - intros Hh p Hn. rewrite dumpDirectories_eq.
    apply recurseDD_reaches; [exact Hn | lia | lia].
  - intro depth. rewrite dumpDirectories_eq. apply recurseDD_appends.
Qed.

(** [dumpDirectories_walk] on a tree [a/b] with a [.svn] beside [a], the
    name [.svn] being excluded. *)
Lemma dumpDirectories_walk_witness :
  let excluded := fun n : string => String.eqb n ".svn" in
  let dir := fun (n : string) (sub : dirstream) => (mkDirent n DT_DIR, sub) in
  let root :=
    Dir [dir "." NoDir; dir ".." NoDir;
         dir "a" (Dir [dir "b" (Dir [])]); dir ".svn" (Dir [])] in
  dumpDirectories excluded (fun s => s) "top" root [] 0 true =
  (true, ["a"%string]) /\
  In "a/b"%string
     (snd (dumpDirectories excluded (fun s => s) "top" root [] (-1) true)).
Proof.
  cbv zeta.
  destruct (dumpDirectories_walk (fun n : string => String.eqb n ".svn")
              (fun s => s) "top"
              (Dir [(mkDirent "." DT_DIR, NoDir); (mkDirent ".." DT_DIR, NoDir);
                    (mkDirent "a" DT_DIR,
                     Dir [(mkDirent "b" DT_DIR, Dir [])]);
                    (mkDirent ".svn" DT_DIR, Dir [])]) [] true)
    as (H0 & Hall & _).
  split.
  - exact (H0 _ eq_refl).
  - apply Hall; [simpl; lia|].
    apply nested_below with (e := mkDirent "a" DT_DIR)
                            (sub := Dir [(mkDirent "b" DT_DIR, Dir [])]);
      [simpl; tauto | reflexivity|].
    apply (nested_entry _ "a" [(mkDirent "b" DT_DIR, Dir [])]
             (mkDirent "b" DT_DIR) (Dir []));
      [simpl; tauto | reflexivity].
Defined.

(** C4 as stated fails when [noBasePath] is false: with depth 0 the vector
    also holds the root itself, which is not one of its subdirectories. *)
Lemma dumpDirectories_depth_0_pushes_root :
  dumpDirectories (fun _ => false) (fun s => s) "top"
    (Dir [(mkDirent "sub" DT_DIR, Dir [])]) [] 0 false =
  (true, ["top"%string; "top/sub"%string]).
Proof. reflexivity. Qed.

(** ** Where the walks fail *)

Lemma strip_slashes_append_slash (p : string) :
  strip_slashes (p ++ "/") = strip_slashes p.
Proof.
  induction p as [|a p IH]; [reflexivity|].
  simpl. rewrite IH. reflexivity.
Qed.

Lemma root_pathbuf_eq (path : string) : root_pathbuf path = path ++ "/".
Proof.
  unfold root_pathbuf, buffer_char, dStrlen.
  replace (S (String.length path) - 1)%nat with (String.length path) by lia.
  rewrite get_length_None. reflexivity.
Qed.

(** C5 (amended).  On a file system where a non-empty path followed by a
    slash opens as the path does, and for a non-empty root path:
    [dumpDirectories] returns [false] if and only if the root path cannot
    be opened as a directory; [dumpPath], for a root path other than [/],
    returns [false] if and only if the root path cannot be opened as a
    directory, and then leaves the vector as it is.  Below the root of
    [dumpDirectories] a directory that cannot be opened leaves the vector
    as it is and its [false] is dropped: the walk of a directory is the
    same whether one of its subdirectories fails to open or is empty, and
    returns [true]. *)
Theorem walks_fail_only_at_root
    (isExcludedDirectory : string -> bool)
    (StringTable_insert : string -> string)
    (tree_at : string -> dirstream)
    (opendir : string -> option (list dirent))
    (W : Type) (px : Posix W) (w : W) :
  (forall p : string, p <> "" -> tree_at (p ++ "/") = tree_at p) ->
  (forall p : string, p <> "" -> opendir (p ++ "/") = opendir p) ->
  (forall (path : string) (vec : list string) (depth : Z)
          (noBasePath : bool),
      path <> "" ->
      fst (dumpDirectories_on isExcludedDirectory StringTable_insert tree_at
             path vec depth noBasePath) = false <-> tree_at path = NoDir) /\
  (forall (path : string) (vec : list FileInfo) (depth : Z),
      path <> "" -> path <> "/" ->
      (opendir path = None ->
       dumpPath isExcludedDirectory StringTable_insert opendir px w path vec
         depth = Value (false, vec)) /\
      (forall v : list FileInfo,
          dumpPath isExcludedDirectory StringTable_insert opendir px w path
            vec depth = Value (false, v) ->
          opendir path = None)) /\
  (forall (basePath path : string) (vec : list string) (depth : Z)
          (noBasePath : bool),
      recurseDumpDirectories isExcludedDirectory StringTable_insert
        basePath path NoDir vec depth noBasePath = (false, vec)) /\
  (forall (basePath path : string) (vec : list string) (depth : Z)
          (noBasePath : bool) (pre post : list (dirent * dirstream))
          (entry : dirent),
      recurseDumpDirectories isExcludedDirectory StringTable_insert
        basePath path (Dir (pre ++ (entry, NoDir) :: post)) vec depth
        noBasePath =
      recurseDumpDirectories isExcludedDirectory StringTable_insert
        basePath path (Dir (pre ++ (entry, Dir []) :: post)) vec depth
        noBasePath /\
      fst (recurseDumpDirectories isExcludedDirectory StringTable_insert
             basePath path (Dir (pre ++ (entry, NoDir) :: post)) vec depth
             noBasePath) = true).
Proof.
  intros Htree Hopen. split.
  { intros path vec depth noBasePath Hne. unfold dumpDirectories_on.
    rewrite root_pathbuf_eq, (Htree path Hne). unfold dumpDirectories.
    destruct (tree_at path) as [|entries].
    - split; reflexivity.
    - cbv zeta. rewrite recurseDD_Dir. split; discriminate. }
  split.
  { intros path vec depth Hne Hroot.
    rewrite (dumpPath_eq _ _ _ _ _ _ path vec depth Hne).
    unfold recurseDumpPath. rewrite recurseDP_eq.
    assert (Ho : opendir (cut_trailing_slash path) = opendir path).
    { destruct (has_trailing_slash path) eqn:Ht.
      - pose proof (cut_trailing_slash_restores path Ht) as Hp.
        rewrite Hp at 2. symmetry. apply Hopen.
        intro Hc. rewrite Hc in Hp. simpl in Hp. congruence.
      - unfold cut_trailing_slash. rewrite Ht. reflexivity. }
    rewrite Ho. split.
    - intros ->. reflexivity.
    - intros v. destruct (opendir path) as [es|]; [|reflexivity].
      destruct (passes_entries isExcludedDirectory _ es); discriminate. }
  split; [reflexivity|].
  intros basePath path vec depth noBasePath pre post entry.
  split; [|reflexivity].
  rewrite !recurseDD_Dir, !dump_es_app, !dump_es_cons. reflexivity.
Qed.

(** [walks_fail_only_at_root] on a file system where only [top] opens,
    holding a subdirectory that does not. *)
Lemma walks_fail_only_at_root_witness :
  let tree_at := fun p : string =>
    if String.eqb (strip_slashes p) "top"
    then Dir [(mkDirent "sub" DT_DIR, NoDir)] else NoDir in
  let opendir := fun p : string =>
    if String.eqb (strip_slashes p) "top"
    then Some [mkDirent "sub" DT_DIR] else None in
  fst (dumpDirectories_on (fun _ => false) (fun s => s) tree_at "top" [] 1
         true) = true /\
  fst (dumpDirectories_on (fun _ => false) (fun s => s) tree_at "gone" [] 1
         true) = false /\
  dumpPath (fun _ => false) (fun s => s) opendir RefPosix.posix [] "gone"
    [] 1 = Value (false, []) /\
  (forall v : list FileInfo,
      dumpPath (fun _ => false) (fun s => s) opendir RefPosix.posix [] "top/"
        [] 1 <> Value (false, v)).
Proof.
  cbv zeta.
  destruct (walks_fail_only_at_root (fun _ => false) (fun s => s)
              (fun p : string =>
                 if String.eqb (strip_slashes p) "top"
                 then Dir [(mkDirent "sub" DT_DIR, NoDir)] else NoDir)
              (fun p : string =>
                 if String.eqb (strip_slashes p) "top"
                 then Some [mkDirent "sub" DT_DIR] else None)
              RefPosix.world RefPosix.posix []
              (fun p _ => f_equal (fun s : string =>
                            if String.eqb s "top"
                            then Dir [(mkDirent "sub" DT_DIR, NoDir)]
                            else NoDir) (strip_slashes_append_slash p))
              (fun p _ => f_equal (fun s : string =>
                            if String.eqb s "top"
                            then Some [mkDirent "sub" DT_DIR]
                            else None) (strip_slashes_append_slash p)))
    as (Hdirs & Hpath & _).
  split.
  { destruct (fst (dumpDirectories_on (fun _ => false) (fun s => s) _ "top"
                     [] 1 true)) eqn:E; [reflexivity|].
    apply (Hdirs "top" [] 1 true ltac:(discriminate)) in E. discriminate E. }
  split.
  { apply (Hdirs "gone" [] 1 true ltac:(discriminate)). reflexivity. }
  split.
  { apply (Hpath "gone" [] 1 ltac:(discriminate) ltac:(discriminate)).
    reflexivity. }
  intros v E.
  apply (Hpath "top/" [] 1 ltac:(discriminate) ltac:(discriminate)) in E.
  discriminate E.
Defined.

(** C5 as stated fails at both ends of the root path.  Where [/] opens
    and the empty path does not, [dumpPath("/")] cuts the slash, opens the
    empty path and returns [false]; [dumpDirectories("")] opens [/] and
    returns [true]. *)
Lemma walks_miss_the_root_path :
  let opendir := fun p : string =>
    if String.eqb p "/" then Some [] else None in
  let tree_at := fun p : string =>
    if String.eqb p "/" then Dir [] else NoDir in
  (opendir "/" <> None /\
   dumpPath (fun _ => false) (fun s => s) opendir RefPosix.posix [] "/" [] 0
   = Value (false, [])) /\
  (tree_at "" = NoDir /\
   dumpDirectories_on (fun _ => false) (fun s => s) tree_at "" [] 0 true =
   (true, [])).
Proof.
  cbv zeta. repeat split. discriminate.
Qed.

(** * Further properties of the File class *)

Local Open Scope Z_scope.

Section OpenMore.
Context {W FILE : Type} (os : Stdio W FILE).

(** X1.  [File::open] never stops at an assertion: whatever the object
    and the world, it returns the status it leaves in the object, and that
    status is never [Closed].  The handle it leaves is [NULL] exactly when
    [fopen] gave [NULL], and then the status is an error status. *)
Theorem open_returns_its_status (filename : string) (openMode : AccessMode)
    (f : File FILE) (w : W) :
  exists s f' w',
    open os filename openMode f w = Ret (s, f', w') /\
    currentStatus f' = s /\
    s <> Closed /\
    (handle f' = None <->
     fst (fopen os filename (fopen_mode openMode)
            (snd (after_close os f w))) = None) /\
    (handle f' = None -> isError s = true).
Proof.
  rewrite open_unfold.
  destruct (after_close os f w) as [f0 w0]; cbn [fst snd].
  destruct (fopen os filename (fopen_mode openMode) w0) as [[fp|] w1];
    cbn [fst snd].
  - cbv zeta.
    assert (Hrw :
      exists s f' w',
        match setPosition os 0 true
                (mkFile Ok (open_capability openMode) (Some fp)) w1 with
        | Ret (_, f2, w2) => Ret (currentStatus f2, f2, w2)
        | Fatal msg => Fatal msg
        end = Ret (s, f', w') /\
        currentStatus f' = s /\ s <> Closed /\ handle f' = Some fp).
    { rewrite (setPosition_eq os 0 true
                 (mkFile Ok (open_capability openMode) (Some fp)) fp w1
                 eq_refl (or_introl eq_refl)); [|intros _; lia].
      do 3 eexists. split; [reflexivity|]. split; [reflexivity|].
      split; [apply seek_status_not_Closed | reflexivity]. }
    destruct openMode.
    + exists Ok. do 2 eexists. split; [reflexivity|]. simpl.
      repeat split; try discriminate.
    + exists Ok. do 2 eexists. split; [reflexivity|]. simpl.
      repeat split; try discriminate.
    + destruct Hrw as (s & f' & w' & E & Hs & Hn & Hh).
      exists s, f', w'. split; [exact E|]. split; [exact Hs|].
      split; [exact Hn|]. rewrite Hh. split; [split|]; discriminate.
    + exists Ok. do 2 eexists. split; [reflexivity|]. simpl.
      repeat split; try discriminate.
  - rewrite setStatus_eq. do 3 eexists. split; [reflexivity|]. simpl.
    split; [reflexivity|]. split; [apply classify_not_Closed|].
    split; [tauto|]. intros _. apply classify_isError.
Qed.

(** X2.  [open] on an object that holds a stream first hands that stream
    to [fclose], and then goes on as [open] does on a closed object with
    the same capability, in the world [fclose] left; this is so whether
    [fclose] succeeds or fails. *)
Theorem open_closes_the_old_stream (filename : string)
    (openMode : AccessMode) (f : File FILE) (old : FILE) (w : W) :
  currentStatus f <> Closed ->
  handle f = Some old ->
  open os filename openMode f w =
  open os filename openMode (mkFile Closed (capability f) None)
    (snd (fclose os old w)).
Proof.
  intros Hs Hh. rewrite !open_unfold.
  unfold after_close.
  rewrite (close_open_stream os f old w Hs Hh).
  rewrite (close_Closed os (mkFile Closed (capability f) None)
             (snd (fclose os old w)) eq_refl).
  destruct (fst (fclose os old w) =? 0);
    destruct (fopen os filename (fopen_mode openMode) (snd (fclose os old w)))
      as [[fp|] w1]; try reflexivity.
  rewrite !setStatus_eq. reflexivity.
Qed.
End OpenMore.

Lemma open_closes_the_old_stream_witness :
  let f := mkFile EOS FileRead (Some tt) in
  let w := RefStdio.disk "f" (Some [Byte.x61]) in
  open RefStdio.stdio "f" Write f w =
  open RefStdio.stdio "f" Write (mkFile Closed FileRead None) w.
Proof.
  cbv zeta.
  apply (open_closes_the_old_stream RefStdio.stdio "f" Write
           (mkFile EOS FileRead (Some tt)) tt
           (RefStdio.disk "f" (Some [Byte.x61]))).
  - discriminate.
  - reflexivity.
Defined.

Section StatusMore.
Context {W FILE : Type} (os : Stdio W FILE).
Variable fflush : FILE -> W -> Z * W.

(** X3.  [read] works in state [Ok] only: on an open object in any other
    state (at the end of the stream, or after an error), a call that meets
    the assertions makes no library call, returns the status as it is and
    leaves the buffer and the [bytesRead] cell untouched, whatever the
    size asked for. *)
Theorem read_only_in_state_Ok (size : Z) (buf : list Byte.byte)
    (cell : option Z) (f : File FILE) (fp : FILE) (w : W) :
  currentStatus f <> Closed ->
  currentStatus f <> Ok ->
  handle f = Some fp ->
  hasCapability FileRead f = true ->
  read os size (Some buf) cell f w =
  Ret (currentStatus f, Some buf, cell, f, w).
Proof.
  intros Hc Ho Hh Hcap. destruct f as [s c h]; simpl in *; subst h.
  unfold read; unfold_monad; simpl. rewrite Hcap.
  destruct s; try congruence; reflexivity.
Qed.

(** X4.  An error status is sticky: on an object in state [IOError] or
    [UnknownError] that still holds its stream, [write], [setPosition]
    (whatever the position, negative ones too) and [getSize] make no
    library call and change nothing; [write] and [setPosition] return
    the error status and [getSize] returns 0. *)
Theorem error_status_is_sticky (f : File FILE) (fp : FILE) (w : W) :
  isError (currentStatus f) = true ->
  handle f = Some fp ->
  (forall (size : Z) (buf : list Byte.byte) (cell : option Z),
      hasCapability FileWrite f = true ->
      write os size (Some buf) cell f w = Ret (currentStatus f, cell, f, w)) /\
  (forall (position : Z) (absolutePos : bool),
      setPosition os position absolutePos f w = Ret (currentStatus f, f, w)) /\
  getSize os f w = Ret (0, f, w).
Proof.
  intros He Hh. destruct f as [s c h]; simpl in *; subst h.
  split; [|split].
  - intros size buf cell Hcap. unfold write; unfold_monad; simpl.
    rewrite Hcap. destruct s; try discriminate; reflexivity.
  - intros position absolutePos. unfold setPosition; unfold_monad; simpl.
    destruct s; try discriminate; reflexivity.
  - unfold getSize; unfold_monad; simpl.
    destruct s; try discriminate; reflexivity.
Qed.

(** X5.  Every method that needs an open file stops at its assertion on a
    closed object: [getPosition], [setPosition], [read], [write] and
    [flush] on a closed object are fatal, and none of them makes a library
    call first. *)
Theorem closed_object_is_fatal (f : File FILE) (w : W) :
  currentStatus f = Closed ->
  getPosition os f w = Fatal "File::getPosition: file closed" /\
  (forall (position : Z) (absolutePos : bool),
      setPosition os position absolutePos f w =
      Fatal "File::setPosition: file closed") /\
  (forall (size : Z) (dst : option (list Byte.byte)) (cell : option Z),
      read os size dst cell f w = Fatal "File::read: file closed") /\
  (forall (size : Z) (src : option (list Byte.byte)) (cell : option Z),
      write os size src cell f w = Fatal "File::write: file closed") /\
  flush os fflush f w = Fatal "File::flush: file closed".
Proof.
  intro Hc. destruct f as [s c h]; simpl in *; subst s.
  repeat split.
Qed.
End StatusMore.

Lemma read_only_in_state_Ok_witness :
  let f := mkFile EOS FileRead (Some tt) in
  let w := RefStdio.disk "f" (Some [Byte.x61]) in
  read RefStdio.stdio 4 (Some [Byte.x00]) (Some 9) f w =
  Ret (EOS, Some [Byte.x00], Some 9, f, w).
Proof.
  cbv zeta.
  apply (read_only_in_state_Ok RefStdio.stdio 4 [Byte.x00] (Some 9)
           (mkFile EOS FileRead (Some tt)) tt
           (RefStdio.disk "f" (Some [Byte.x61])));
    [discriminate | discriminate | reflexivity | reflexivity].
Defined.

Lemma error_status_is_sticky_witness :
  let f := mkFile IOError FileWrite (Some tt) in
  let w := RefStdio.disk "f" (Some [Byte.x61]) in
  write RefStdio.stdio 1 (Some [Byte.x62]) (Some 9) f w =
  Ret (IOError, Some 9, f, w) /\
  setPosition RefStdio.stdio (-5) true f w = Ret (IOError, f, w) /\
  getSize RefStdio.stdio f w = Ret (0, f, w).
Proof.
  cbv zeta.
  destruct (error_status_is_sticky RefStdio.stdio
              (mkFile IOError FileWrite (Some tt)) tt
              (RefStdio.disk "f" (Some [Byte.x61])) eq_refl eq_refl)
    as (Hw & Hs & Hg).
  split; [apply Hw; reflexivity|]. split; [apply Hs | exact Hg].
Defined.

Lemma closed_object_is_fatal_witness :
  read RefStdio.stdio 1 (Some [Byte.x00]) None
    (@File_new unit) (RefStdio.disk "f" None) =
  Fatal "File::read: file closed".
Proof.
  apply (closed_object_is_fatal RefStdio.stdio ref_fflush
           File_new (RefStdio.disk "f" None) eq_refl).
Defined.

Section CapabilityMore.
Context {W FILE : Type} (os : Stdio W FILE).
Variable fflush : FILE -> W -> Z * W.

(** X6.  The capability [open] sets lets an object opened for [Read] read
    and not write, one opened for [Write] or [WriteAppend] write and not
    read, and one opened for [ReadWrite] do both; and on an open object
    a [read] without the read capability, and a [write] or a [flush]
    without the write capability, stop at the assertion before any library
    call. *)
Theorem capability_guards_the_methods :
  (forall (openMode : AccessMode) (s : Status) (h : option FILE),
      hasCapability FileRead (mkFile s (open_capability openMode) h) =
      match openMode with Read | ReadWrite => true | _ => false end /\
      hasCapability FileWrite (mkFile s (open_capability openMode) h) =
      match openMode with Read => false | _ => true end) /\
  (forall (f : File FILE) (fp : FILE) (w : W),
      currentStatus f <> Closed -> handle f = Some fp ->
      (hasCapability FileRead f = false ->
       forall (size : Z) (buf : list Byte.byte) (cell : option Z),
         read os size (Some buf) cell f w =
         Fatal "File::read: file lacks capability") /\
      (hasCapability FileWrite f = false ->
       (forall (size : Z) (buf : list Byte.byte) (cell : option Z),
           write os size (Some buf) cell f w =
           Fatal "File::write: file lacks capability") /\
       flush os fflush f w =
       Fatal "File::flush: cannot flush a read-only file")).
Proof.
  split.
  { intros openMode s h. destruct openMode; split; reflexivity. }
  intros f fp w Hc Hh. destruct f as [s c h]; simpl in *; subst h.
  split.
  - intros Hcap size buf cell. unfold read; unfold_monad.
    destruct s; try congruence; simpl; rewrite Hcap; reflexivity.
  - intros Hcap. split.
    + intros size buf cell. unfold write; unfold_monad.
      destruct s; try congruence; simpl; rewrite Hcap; reflexivity.
    + unfold flush; unfold_monad.
      destruct s; try congruence; simpl; rewrite Hcap; reflexivity.
Qed.

(** X7.  On an open object with the write capability, [flush] calls
    [fflush] and nothing else; when [fflush] succeeds the status becomes
    [Ok] whatever it was before, an end of stream or an error included,
    and when it fails the status becomes the classification of [errno].
    The handle and the capability stay. *)
Theorem flush_resets_the_status (f : File FILE) (fp : FILE) (w : W) :
  currentStatus f <> Closed ->
  handle f = Some fp ->
  hasCapability FileWrite f = true ->
  let r := fst (fflush fp w) in
  let w1 := snd (fflush fp w) in
  let s := if r =? 0 then Ok else classify (errno os w1) in
  flush os fflush f w = Ret (s, mkFile s (capability f) (Some fp), w1).
Proof.
  intros Hc Hh Hcap; cbv zeta. destruct f as [s c h]; simpl in *; subst h.
  unfold flush; unfold_monad.
  destruct s; try congruence; simpl; rewrite Hcap; simpl;
    destruct (fflush fp w) as [r w1]; simpl;
    (destruct (r =? 0); simpl; [reflexivity|]);
    rewrite setStatus_eq; reflexivity.
Qed.
End CapabilityMore.

Lemma capability_guards_the_methods_witness :
  read RefStdio.stdio 1 (Some [Byte.x00]) None
    (mkFile Ok (open_capability Write) (Some tt))
    (RefStdio.disk "f" (Some [])) =
  Fatal "File::read: file lacks capability".
Proof.
  apply (proj2 (capability_guards_the_methods RefStdio.stdio ref_fflush)
           (mkFile Ok (open_capability Write) (Some tt)) tt
           (RefStdio.disk "f" (Some [])));
    [discriminate | reflexivity | reflexivity].
Defined.

Lemma flush_resets_the_status_witness :
  let f := mkFile UnknownError FileWrite (Some tt) in
  let w := RefStdio.disk "f" (Some []) in
  flush RefStdio.stdio ref_fflush f w =
  Ret (Ok, mkFile Ok FileWrite (Some tt), w).
Proof.
  cbv zeta.
  apply (flush_resets_the_status RefStdio.stdio ref_fflush
           (mkFile UnknownError FileWrite (Some tt)) tt
           (RefStdio.disk "f" (Some [])));
    [discriminate | reflexivity | reflexivity].
Defined.

Section FrameMore.
Context {W FILE : Type} (os : Stdio W FILE).
Variable fflush : FILE -> W -> Z * W.

(** The tests and calls of a method run, taken apart until the run is a
    value. *)
Ltac run_method :=
  repeat first
    [ os_step
    | match goal with
      | |- context [let (_, _) := ?c in _] => destruct c as [? ?] eqn:?; simpl
      | |- context [match ?o with Some _ => _ | None => _ end] =>
          destruct o; simpl
      end
    | rewrite setStatus_eq; simpl ].

Ltac close_frame :=
  let H := fresh "H" in
  intro H; inversion H; subst; try clear H; unfold keeps_stream; simpl;
  repeat split; try discriminate; try apply classify_not_Closed;
  try reflexivity.

(** X8.  [read], [write], [setPosition] and [flush] change nothing of the
    object but its status: whenever one of them returns, the handle and
    the capability are the ones it found and the status is not [Closed];
    [getSize] and [getPosition] leave the whole object as it is.  So none
    of them closes the file or drops the stream, and a closed object
    stays without a stream. *)
Theorem methods_keep_the_stream (f : File FILE) (w : W) :
  (forall size dst cell r f' w',
      read os size dst cell f w = Ret (r, f', w') -> keeps_stream f f') /\
  (forall size src cell r f' w',
      write os size src cell f w = Ret (r, f', w') -> keeps_stream f f') /\
  (forall position absolutePos r f' w',
      setPosition os position absolutePos f w = Ret (r, f', w') ->
      keeps_stream f f') /\
  (forall r f' w',
      flush os fflush f w = Ret (r, f', w') -> keeps_stream f f') /\
  (forall r f' w', getSize os f w = Ret (r, f', w') -> f' = f) /\
  (forall r f' w', getPosition os f w = Ret (r, f', w') -> f' = f).
Proof.
  destruct f as [s c h].
  split; [|split; [|split; [|split; [|split]]]].
  - intros size dst cell r f' w'. unfold read; unfold_monad.
    destruct s, h as [fp|], dst as [buf|]; simpl; try discriminate;
      run_method; try discriminate; close_frame.
  - intros size src cell r f' w'. unfold write; unfold_monad.
    destruct s, h as [fp|], src as [buf|]; simpl; try discriminate;
      run_method; try discriminate; close_frame.
  - intros position absolutePos r f' w'.
    unfold setPosition, getPosition, getSize; unfold_monad.
    destruct s, h as [fp|], absolutePos; simpl; try discriminate;
      run_method; try discriminate; close_frame.
  - intros r f' w'. unfold flush; unfold_monad.
    destruct s, h as [fp|]; simpl; try discriminate;
      run_method; try discriminate; close_frame.
  - intros r f' w'. unfold getSize; unfold_monad.
    destruct s, h as [fp|]; simpl; try discriminate;
      run_method; try discriminate; intro H; inversion H; reflexivity.
  - intros r f' w'. unfold getPosition; unfold_monad.
    destruct s, h as [fp|]; simpl; try discriminate;
      run_method; try discriminate; intro H; inversion H; reflexivity.
Qed.
End FrameMore.

Lemma methods_keep_the_stream_witness :
  let f := mkFile Ok FileRead (Some tt) in
  let w := RefStdio.disk "f" (Some [Byte.x61]) in
  keeps_stream f (mkFile EOS FileRead (Some tt)).
Proof.
  cbv zeta.
  apply (proj1 (methods_keep_the_stream RefStdio.stdio ref_fflush
                  (mkFile Ok FileRead (Some tt))
                  (RefStdio.disk "f" (Some [Byte.x61])))
           4 (Some [Byte.x00]) None (EOS, Some [Byte.x61], None)
           (mkFile EOS FileRead (Some tt))
           (RefStdio.with_cursor 1 (RefStdio.disk "f" (Some [Byte.x61])))).
  reflexivity.
Defined.

Section SeekMore.
Context {W FILE : Type} (os : Stdio W FILE).

(** X24.  The assertion of [setPosition] on a relative position can never
    fail, because the sum it tests is unsigned: on an open object in
    state [Ok] or [EOS] a relative seek returns for every offset, however
    far before the start of the file, with the status the offset read
    back gives; only a negative absolute position stops at an
    assertion. *)
Theorem relative_seek_is_never_fatal (f : File FILE) (fp : FILE) (w : W)
    (position : Z) :
  handle f = Some fp ->
  currentStatus f = Ok \/ currentStatus f = EOS ->
  (let w0 := snd (ftell os fp w) in
   let w1 := snd (fseek os fp position SEEK_CUR w0) in
   let p := fst (ftell os fp w1) in
   let w2 := snd (ftell os fp w1) in
   let sz := size_of_fstat (fst (fstat_size os fp w2)) in
   exists f' w',
     setPosition os position false f w = Ret (seek_status os p w2 sz, f', w')
     /\ currentStatus f' = seek_status os p w2 sz) /\
  (position < 0 ->
   setPosition os position true f w =
   Fatal "File::setPosition: negative absolute position").
Proof.
  intros Hh Hs. split.
  - rewrite (setPosition_eq os position false f fp w Hh Hs);
      [|discriminate].
    cbv zeta. do 2 eexists. split; reflexivity.
  - intro Hneg. destruct f as [s c h]; simpl in *; subst h.
    unfold setPosition; unfold_monad.
    apply Z.leb_gt in Hneg.
    destruct Hs; subst s; simpl; rewrite Hneg; reflexivity.
Qed.
End SeekMore.

Lemma relative_seek_is_never_fatal_witness :
  let f := mkFile Ok FileRead (Some tt) in
  let w := RefStdio.disk "f" (Some [Byte.x61]) in
  setPosition RefStdio.stdio (-5) true f w =
  Fatal "File::setPosition: negative absolute position".
Proof.
  cbv zeta.
  apply (proj2 (relative_seek_is_never_fatal RefStdio.stdio
                  (mkFile Ok FileRead (Some tt)) tt
                  (RefStdio.disk "f" (Some [Byte.x61])) (-5)
                  eq_refl (or_introl eq_refl))).
  lia.
Defined.

(** * Further properties of the path functions *)

(** X9.  [compareFileTimes] gives the sign of the order of its arguments:
    0 exactly for equal times, 1 exactly when the first is later, [-1]
    exactly when it is earlier; swapping the arguments negates the
    result. *)
Theorem compareFileTimes_is_the_order (a b : Z) :
  (compareFileTimes a b = 0 <-> a = b) /\
  (compareFileTimes a b = 1 <-> b < a) /\
  (compareFileTimes a b = -1 <-> a < b) /\
  compareFileTimes b a = - compareFileTimes a b.
Proof.
  unfold compareFileTimes.
  destruct (b <? a) eqn:E1; destruct (a <? b) eqn:E2;
    rewrite ?Z.ltb_lt, ?Z.ltb_ge in *; repeat split; intros; try lia.
Qed.

Section PathMore.
Context {W : Type} (px : Posix W).
Variable system : string -> W -> Z * W.

(** X10.  No path is both a file and a directory; and when [isFile] or
    [isDirectory] says yes, the path is neither null nor empty, [stat]
    found it, [getFileSize] returns its size and [getFileTimes] succeeds
    and stores its two times in the cells that are not [NULL]. *)
Theorem file_or_directory_was_found (path : option string) (w : W) :
  isFile px path w && isDirectory px path w = false /\
  (isFile px path w || isDirectory px path w = true ->
   exists (p : string) (statData : stat_t),
     path = Some p /\ p <> EmptyString /\
     os_stat px p w = Some statData /\
     getFileSize px path w = S32 (st_size statData) /\
     forall createTime modifyTime : option Z,
       getFileTimes px path createTime modifyTime w =
       (true,
        option_map (fun _ => st_ctime statData) createTime,
        option_map (fun _ => st_mtime statData) modifyTime)).
Proof.
  destruct path as [[|a s]|]; simpl; try (split; [reflexivity|discriminate]).
  destruct (os_stat px (String a s) w) as [statData|] eqn:E;
    [|split; [reflexivity|discriminate]].
  split.
  - destruct (Z.land (st_mode statData) S_IFMT =? S_IFREG) eqn:E1;
      [|reflexivity].
    apply Z.eqb_eq in E1. rewrite E1. reflexivity.
  - intros _. exists (String a s), statData.
    repeat split; try discriminate; try assumption.
Qed.

(** X11.  [openFolder] runs a command only for a directory: for a null or
    empty path, for a path [stat] does not find and for anything that is
    not a directory it leaves the world as it is; for a directory [p] it
    runs exactly [open 'p']. *)
Theorem openFolder_only_for_directories (path : option string) (w : W) :
  (null_or_empty path = true -> openFolder px system path w = w) /\
  (forall p, path = Some p -> os_stat px p w = None ->
             openFolder px system path w = w) /\
  (isDirectory px path w = false -> openFolder px system path w = w) /\
  (isDirectory px path w = true ->
   exists p, path = Some p /\
             openFolder px system path w =
             snd (system ("open '" ++ p ++ "'")%string w)).
Proof.
  unfold openFolder. repeat split.
  - intro H. destruct path as [[|a s]|]; try discriminate; reflexivity.
  - intros p -> Hs. unfold isDirectory. destruct p; [reflexivity|].
    rewrite Hs. reflexivity.
  - intros ->. reflexivity.
  - intro H. rewrite H. destruct path as [p|]; [|discriminate].
    exists p. split; reflexivity.
Qed.
End PathMore.

Lemma file_or_directory_was_found_witness :
  exists (p : string) (statData : stat_t),
    Some "usr"%string = Some p /\ p <> EmptyString /\
    os_stat RefPosix.posix p [("usr"%string, true)] = Some statData /\
    getFileSize RefPosix.posix (Some "usr"%string) [("usr"%string, true)] =
    S32 (st_size statData) /\
    forall createTime modifyTime : option Z,
      getFileTimes RefPosix.posix (Some "usr"%string) createTime modifyTime
        [("usr"%string, true)] =
      (true,
       option_map (fun _ => st_ctime statData) createTime,
       option_map (fun _ => st_mtime statData) modifyTime).
Proof.
  apply (proj2 (file_or_directory_was_found RefPosix.posix
                  (Some "usr"%string) [("usr"%string, true)])).
  reflexivity.
Defined.

Lemma openFolder_only_for_directories_witness :
  openFolder RefPosix.posix (fun _ w => (0, ("ran"%string, true) :: w))
    (Some "gone"%string) [("usr"%string, true)] = [("usr"%string, true)].
Proof.
  apply (proj1 (proj2 (proj2
           (openFolder_only_for_directories RefPosix.posix
              (fun _ w => (0, ("ran"%string, true) :: w))
              (Some "gone"%string) [("usr"%string, true)])))).
  reflexivity.
Defined.

Lemma truncate_all (n : nat) (s : string) :
  (String.length s <= n)%nat -> truncate n s = s.
Proof.
  revert s; induction n as [|n IH]; intros [|a s] H; simpl in *;
    try reflexivity; [lia|].
  rewrite IH; [reflexivity | lia].
Qed.

Lemma length_append (s t : string) :
  String.length (s ++ t) = (String.length s + String.length t)%nat.
Proof. induction s as [|a s IH]; simpl; [reflexivity | rewrite IH; reflexivity]. Qed.

Section MainDotCs.
Context {W : Type} (px : Posix W).

(** X12.  In [isMainDotCsPresent] the buffer always holds the whole name:
    when the assertion on the length passes, the answer is [isFile] of
    the directory followed by [/main.cs], nothing cut off; when it does
    not pass, that is from 2039 characters on, the function stops
    there. *)
Theorem isMainDotCsPresent_never_truncates (dir : string) (w : W) :
  ((String.length dir < 2039)%nat ->
   isMainDotCsPresent px dir w =
   Ret (isFile px (Some (dir ++ "/main.cs")%string) w)) /\
  ((2039 <= String.length dir)%nat ->
   isMainDotCsPresent px dir w =
   Fatal "Sorry, path is too long, I can't run from this folder.").
Proof.
  unfold isMainDotCsPresent, dStrlen, MAX_MAC_PATH_LONG. cbv zeta.
  change (String.length "/main.cs") with 8%nat.
  split; intro H.
  - replace (Z.of_nat (String.length dir + 8 + 1) <? 2048) with true
      by (symmetry; apply Z.ltb_lt; lia).
    rewrite truncate_all; [reflexivity|].
    rewrite length_append. change (String.length "/main.cs") with 8%nat.
    change (Z.to_nat (2048 - 1)) with 2047%nat. lia.
  - replace (Z.of_nat (String.length dir + 8 + 1) <? 2048) with false
      by (symmetry; apply Z.ltb_ge; lia).
    reflexivity.
Qed.
End MainDotCs.

Lemma isMainDotCsPresent_never_truncates_witness :
  isMainDotCsPresent RefPosix.posix "game"
    [("game"%string, true); ("game/main.cs"%string, false)] = Ret true.
Proof.
  apply (proj1 (isMainDotCsPresent_never_truncates RefPosix.posix "game"
                  [("game"%string, true); ("game/main.cs"%string, false)])).
  simpl. lia.
Defined.

(** X13.  [getExecutablePath] caches its answer: once the string table
    exists or a directory is cached, the call leaves a cached directory,
    returns it, and every later call returns the same string and leaves
    the cache as it is, whatever the table then is.  Before the table
    exists and with nothing cached it returns [.] and caches nothing. *)
Theorem getExecutablePath_caches (StringTable : option (string -> string))
    (mainDotCsDir : option string) :
  let r := fst (getExecutablePath StringTable mainDotCsDir) in
  let cache := snd (getExecutablePath StringTable mainDotCsDir) in
  (StringTable <> None \/ mainDotCsDir <> None ->
   cache = Some r /\
   forall later : option (string -> string),
     getExecutablePath later cache = (r, cache)) /\
  (StringTable = None -> mainDotCsDir = None ->
   r = "."%string /\ cache = None) /\
  (forall d, mainDotCsDir = Some d -> r = d /\ cache = mainDotCsDir).
Proof.
  cbv zeta. destruct mainDotCsDir as [d|], StringTable as [insert|]; simpl.
  - split; [intros _; split; [reflexivity | intros later; reflexivity]|].
    split; [discriminate | intros d' H; inversion H; split; reflexivity].
  - split; [intros _; split; [reflexivity | intros later; reflexivity]|].
    split; [discriminate | intros d' H; inversion H; split; reflexivity].
  - split; [intros _; split; [reflexivity | intros later; reflexivity]|].
    split; discriminate.
  - split; [intros [H | H]; congruence|].
    split; [intros _ _; split; reflexivity | discriminate].
Qed.

Lemma getExecutablePath_caches_witness :
  getExecutablePath None (snd (getExecutablePath (Some (fun s => s)) None)) =
  ("."%string, Some "."%string).
Proof.
  apply (proj1 (getExecutablePath_caches (Some (fun s => s)) None)).
  left. discriminate.
Defined.

(** * Further properties of the directory walks *)

Section WalkMore.
Variable isExcludedDirectory : string -> bool.
Variable StringTable_insert : string -> string.

Abbreviation rDD := (recurseDumpDirectories isExcludedDirectory
                       StringTable_insert).
Abbreviation d_es := (dump_entries isExcludedDirectory StringTable_insert).
Abbreviation isGood := (isGoodDirectory isExcludedDirectory).

(** X18.  [hasSubDirectory] says whether a walk of depth 0 without base
    path finds anything: it is [true] exactly when [dumpDirectories] with
    depth 0 appends an entry, and [false] for a directory that does not
    open. *)
Theorem hasSubDirectory_iff_walk_finds (path : string) (root : dirstream) :
  hasSubDirectory isExcludedDirectory root =
  match snd (dumpDirectories isExcludedDirectory StringTable_insert path
               root [] 0 true) with
  | [] => false
  | _ :: _ => true
  end.
Proof.
  rewrite dumpDirectories_eq. destruct root as [|es]; [reflexivity|].
  rewrite recurseDD_Dir, dump_es_depth_0. cbn [snd app].
  induction es as [|[e sub] es IH]; [reflexivity|].
  simpl. destruct (isGood e); [reflexivity | exact IH].
Qed.

(** X19.  Entries that do not pass [isGoodDirectory] (files, [.], [..],
    excluded names), with everything below them, make no difference to a
    walk: the walk of a directory is the walk of its good entries. *)
Theorem walk_ignores_bad_entries (basePath path : string)
    (es : list (dirent * dirstream)) (vec : list string) (depth : Z)
    (noBasePath : bool) :
  rDD basePath path (Dir es) vec depth noBasePath =
  rDD basePath path (Dir (filter (fun x => isGood (fst x)) es)) vec depth
    noBasePath.
Proof.
  rewrite !recurseDD_Dir. f_equal. revert vec.
  induction es as [|[e sub] es IH]; intro vec; [reflexivity|].
  cbn [filter fst]. rewrite dump_es_cons.
  destruct (isGood e) eqn:Hg; cbn [negb].
  - rewrite dump_es_cons, Hg. cbn [negb]. cbv zeta. apply IH.
  - apply IH.
Qed.
Lemma S32_pred_of_nat (k : nat) :
  Z.of_nat (S k) < 2 ^ 31 -> S32 (Z.of_nat (S k) - 1) = Z.of_nat k.
Proof. intro H. rewrite S32_small; lia. Qed.

(** A walk of depth [k] sees the first [k + 1] levels only. *)
Lemma walk_sees_levels (basePath : string) (noBasePath : bool) (k : nat) :
  Z.of_nat k < 2 ^ 31 ->
  forall (dir : dirstream) (path : string) (vec : list string),
    rDD basePath path dir vec (Z.of_nat k) noBasePath =
    rDD basePath path (prune (S k) dir) vec (Z.of_nat k) noBasePath.
Proof.
  induction k as [|k IH]; intros Hk dir path vec;
    (destruct dir as [|es]; [reflexivity|]);
    cbn [prune]; rewrite !recurseDD_Dir; f_equal.
  - change (Z.of_nat 0) with 0. rewrite !dump_es_depth_0, map_map.
    reflexivity.
  - revert vec. induction es as [|[e sub] es IHes]; intro vec;
      [reflexivity|].
    cbn [map fst snd]. rewrite !dump_es_cons.
    destruct (negb (isGood e)); [apply IHes|]. cbv zeta.
    replace (Z.of_nat (S k) =? 0) with false
      by (symmetry; apply Z.eqb_neq; lia).
    cbn [negb]. rewrite (S32_pred_of_nat k Hk).
    rewrite (IH ltac:(lia) sub). apply IHes.
Qed.

(** On a tree cut below level [k + 1], a negative depth that stays within
    [S32] walks what depth [k] walks. *)
Lemma pruned_walk_unbounded (basePath : string) (noBasePath : bool)
    (k : nat) :
  Z.of_nat k < 2 ^ 31 ->
  forall (dir : dirstream) (path : string) (vec : list string) (m : Z),
    m < 0 -> - 2 ^ 31 <= m - Z.of_nat k ->
    rDD basePath path (prune (S k) dir) vec (Z.of_nat k) noBasePath =
    rDD basePath path (prune (S k) dir) vec m noBasePath.
Proof.
  induction k as [|k IH]; intros Hk dir path vec m Hm Hr;
    (destruct dir as [|es]; [reflexivity|]);
    cbn [prune]; rewrite !recurseDD_Dir; f_equal.
  - change (Z.of_nat 0) with 0. revert vec.
    induction es as [|[e sub] es IHes]; intro vec; [reflexivity|].
    cbn [map fst snd]. rewrite !dump_es_cons.
    destruct (negb (isGood e)); [apply IHes|]. cbv zeta.
    replace (m =? 0) with false by (symmetry; apply Z.eqb_neq; lia).
    cbn [negb Z.eqb]. cbn [recurseDumpDirectories snd]. apply IHes.
  - revert vec. induction es as [|[e sub] es IHes]; intro vec;
      [reflexivity|].
    cbn [map fst snd]. rewrite !dump_es_cons.
    destruct (negb (isGood e)); [apply IHes|]. cbv zeta.
    replace (Z.of_nat (S k) =? 0) with false
      by (symmetry; apply Z.eqb_neq; lia).
    replace (m =? 0) with false by (symmetry; apply Z.eqb_neq; lia).
    cbn [negb]. rewrite (S32_pred_of_nat k Hk).
    rewrite (S32_small (m - 1)) by lia.
    rewrite (IH ltac:(lia) sub _ _ (m - 1)) by lia. apply IHes.
Qed.

(** X20.  The depth bounds the levels a walk sees, and nothing else: for
    a depth [d] from 0 to the largest [S32], [dumpDirectories] with depth
    [d] gives what it gives with the unbounded depth [-1] on the tree cut
    below level [d + 1]. *)
Theorem bounded_walk_is_walk_of_cut_tree (path : string) (root : dirstream)
    (vec : list string) (depth : Z) (noBasePath : bool) :
  0 <= depth < 2 ^ 31 ->
  dumpDirectories isExcludedDirectory StringTable_insert path root vec depth
    noBasePath =
  dumpDirectories isExcludedDirectory StringTable_insert path
    (prune (S (Z.to_nat depth)) root) vec (-1) noBasePath.
Proof.
  intro Hd. rewrite !dumpDirectories_eq.
  rewrite <- (Z2Nat.id depth) at 1 by lia.
  rewrite walk_sees_levels by (rewrite Z2Nat.id; lia).
  apply pruned_walk_unbounded; rewrite ?Z2Nat.id; lia.
Qed.
End WalkMore.

Lemma bounded_walk_is_walk_of_cut_tree_witness :
  let dir := fun (n : string) (sub : dirstream) => (mkDirent n DT_DIR, sub) in
  let root :=
    Dir [dir "a"%string
           (Dir [dir "b"%string (Dir [dir "c"%string (Dir [])])])] in
  dumpDirectories (fun _ => false) (fun s => s) "top" root [] 1 true =
  dumpDirectories (fun _ => false) (fun s => s) "top" (prune 2 root) [] (-1)
    true.
Proof.
  cbv zeta.
  exact (bounded_walk_is_walk_of_cut_tree (fun _ => false) (fun s => s)
           "top"
           (Dir [(mkDirent "a" DT_DIR,
                  Dir [(mkDirent "b" DT_DIR,
                        Dir [(mkDirent "c" DT_DIR, Dir [])])])])
           [] 1 true ltac:(lia)).
Defined.

Section WalkFlag.
Variable isExcludedDirectory : string -> bool.
Variable StringTable_insert : string -> string.

Lemma walk_visits (basePath : string) (dir : dirstream) :
  forall (path : string) (depth : Z),
  exists raw : list string,
    forall (vec : list string) (noBasePath : bool),
      snd (recurseDumpDirectories isExcludedDirectory StringTable_insert
             basePath path dir vec depth noBasePath) =
      (vec ++ map (fun r => pushed StringTable_insert basePath r noBasePath)
                raw)%list.
Proof.
  induction dir as [|es IH] using dirstream_rect'; intros path depth.
  - exists []. intros vec noBasePath. simpl. rewrite app_nil_r. reflexivity.
  - assert (Hes : exists raw : list string,
               forall (vec : list string) (noBasePath : bool),
                 dump_entries isExcludedDirectory StringTable_insert basePath
                   path depth noBasePath es vec =
                 (vec ++ map (fun r => pushed StringTable_insert basePath r
                                         noBasePath) raw)%list).
    { induction IH as [|[e sub] es Hsub _ IHes].
      - exists []. intros vec noBasePath. rewrite dump_es_nil, app_nil_r.
        reflexivity.
      - destruct IHes as [raw2 H2]. cbn [snd] in Hsub.
        destruct (isGoodDirectory isExcludedDirectory e) eqn:Hg.
        + destruct (negb (depth =? 0)) eqn:Hd.
          * destruct (Hsub (entry_path path e) (S32 (depth - 1)))
              as [raw1 H1].
            exists ([entry_path path e] ++ raw1 ++ raw2)%list.
            intros vec noBasePath.
            rewrite dump_es_cons, Hg. cbn [negb]. cbv zeta. rewrite Hd.
            rewrite H1, H2, !map_app, <- !app_assoc. reflexivity.
          * exists ([entry_path path e] ++ raw2)%list.
            intros vec noBasePath.
            rewrite dump_es_cons, Hg. cbn [negb]. cbv zeta. rewrite Hd.
            rewrite H2, !map_app, <- !app_assoc. reflexivity.
        + exists raw2. intros vec noBasePath.
          rewrite dump_es_cons, Hg. cbn [negb]. apply H2. }
    destruct Hes as [raw H]. exists raw. intros vec noBasePath.
    rewrite recurseDD_Dir. cbn [snd]. apply H.
Qed.

(** X25.  The flag [noBasePath] chooses how the directories are written,
    not which ones are visited: for every tree and depth there is one list
    of relative paths such that [dumpDirectories], whatever vector it is
    given, appends their interned forms when the flag is set, and
    otherwise the interned root followed by the interned [root/relative
    path] of each, in the same order. *)
Theorem flag_only_changes_the_rendering (path : string) (root : dirstream)
    (depth : Z) :
  exists raw : list string,
    forall vec : list string,
      snd (dumpDirectories isExcludedDirectory StringTable_insert path root
             vec depth true) =
      (vec ++ map StringTable_insert raw)%list /\
      snd (dumpDirectories isExcludedDirectory StringTable_insert path root
             vec depth false) =
      (vec ++ StringTable_insert path ::
         map (fun r => StringTable_insert (path ++ "/" ++ r)%string) raw)%list.
Proof.
  destruct (walk_visits path root "" depth) as [raw H].
  exists raw. intro vec. rewrite !dumpDirectories_eq, !H. split.
  - reflexivity.
  - rewrite <- app_assoc. reflexivity.
Qed.
End WalkFlag.

(** * Further properties of createPath *)

Lemma truncate_prefix (n : nat) (s : string) :
  exists rest : string, s = (truncate n s ++ rest)%string.
Proof.
  revert s; induction n as [|n IH]; intros [|a s]; simpl.
  - exists EmptyString. reflexivity.
  - exists (String a s). reflexivity.
  - exists EmptyString. reflexivity.
  - destruct (IH s) as [rest E]. exists rest. rewrite <- E. reflexivity.
Qed.

Lemma append_assoc (a b c : string) :
  ((a ++ b) ++ c)%string = (a ++ (b ++ c))%string.
Proof. induction a as [|x a IH]; simpl; [reflexivity | rewrite IH; reflexivity]. Qed.

(** X14.  The path [createPath] recurses on is a proper prefix of its
    argument, ends in a slash and has at least two characters: the
    recursion climbs towards the root and never reaches a lone leading
    slash or the empty string. *)
Theorem parent_path_is_a_proper_prefix (file parent : string) :
  parent_path file = Some parent ->
  (exists rest : string,
      file = (parent ++ rest)%string /\ rest <> EmptyString) /\
  has_trailing_slash parent = true /\
  (2 <= String.length parent)%nat.
Proof.
  intro H.
  pose proof (parent_path_shorter _ _ H) as Hlt.
  pose proof (parent_path_trailing_slash _ _ H) as Hts.
  unfold parent_path in H.
  destruct (dStrrchr (cut_trailing_slash file) slash) as [[|i]|] eqn:E;
    try discriminate.
  assert (Hp : parent = truncate (S (S i)) (cut_trailing_slash file))
    by congruence.
  clear H. split; [|split; [exact Hts|]].
  - destruct (truncate_prefix (S (S i)) (cut_trailing_slash file)) as [r1 E1].
    assert (E2 : exists r2, file = (cut_trailing_slash file ++ r2)%string).
    { unfold cut_trailing_slash. destruct (has_trailing_slash file).
      - apply truncate_prefix.
      - exists EmptyString. clear. induction file as [|a s IH];
          simpl; [reflexivity | rewrite <- IH; reflexivity]. }
    destruct E2 as [r2 E2].
    exists (r1 ++ r2)%string. split.
    + rewrite <- append_assoc, Hp, <- E1. exact E2.
    + intro Hr. assert (El : String.length file =
                             (String.length parent +
                              String.length (r1 ++ r2))%nat).
      { rewrite <- length_append, <- append_assoc, Hp, <- E1, <- E2.
        reflexivity. }
      rewrite Hr in El. simpl in El. lia.
  - apply dStrrchr_lt in E. rewrite Hp, length_truncate. lia.
Qed.

Lemma parent_path_is_a_proper_prefix_witness :
  (exists rest : string,
      "a/b/c/"%string = ("a/b/" ++ rest)%string /\ rest <> EmptyString) /\
  has_trailing_slash "a/b/" = true /\
  (2 <= String.length "a/b/")%nat.
Proof.
  apply (parent_path_is_a_proper_prefix "a/b/c/" "a/b/"). reflexivity.
Defined.

Section CreatePathMore.
Context {W : Type} (px : Posix W).

(** X15.  [createPath] always comes to an end, and its behaviour is
    undefined in one case only: the empty path when [stat] does not find
    it, where the test for a trailing slash reads before the start of the
    buffer.  On every other input it returns [true] or [false]. *)
Theorem createPath_undefined_only_for_empty (file : string) (w : W) :
  createPath px file w <> OutOfFuel /\
  (createPath px file w = Undefined <->
   file = EmptyString /\ path_exists px EmptyString w = false).
Proof.
  destruct file as [|a s].
  - rewrite createPath_unfold. unfold path_exists.
    destruct (is_some (os_stat px EmptyString w)).
    + split; [discriminate|]. split; [discriminate | intros [_ H]; discriminate].
    + split; [discriminate|]. split; auto.
  - destruct (createPath_returns px (String a s) w ltac:(discriminate))
      as (b & w' & E).
    rewrite E. split; [discriminate|].
    split; [discriminate | intros [H _]; discriminate].
Qed.

(** X16.  For a path without a trailing slash that [stat] does not find,
    [createPath] does exactly what it does on the parent path: it makes
    the directories that lead to the file and never calls [mkdir] on the
    last component; without a parent path it returns [true] and changes
    nothing. *)
Theorem createPath_of_a_file_path (file : string) (w : W) :
  file <> EmptyString ->
  has_trailing_slash file = false ->
  path_exists px file w = false ->
  createPath px file w =
  match parent_path file with
  | Some parent => createPath px parent w
  | None => Value (true, w)
  end.
Proof.
  intros Hne Ht He. rewrite createPath_unfold.
  unfold path_exists in He. rewrite He.
  destruct file as [|a s]; [congruence|].
  unfold create_last. rewrite Ht.
  destruct (parent_path (String a s)) as [parent|]; [|reflexivity].
  destruct (createPath px parent w) as [[[|] w']| |]; reflexivity.
Qed.

(** X17.  [createPath] removes nothing: on a file system whose [mkdir]
    removes nothing, whatever existed before the call exists after it,
    whether the call returns [true] or [false]. *)
Theorem createPath_removes_nothing (file x : string) (b : bool) (w w' : W) :
  (forall (p q : string) (m r : Z) (w0 w1 : W),
      os_mkdir px p m w0 = (r, w1) ->
      path_exists px q w0 = true -> path_exists px q w1 = true) ->
  createPath px file w = Value (b, w') ->
  path_exists px x w = true -> path_exists px x w' = true.
Proof.
  intros Hkeep Hrun Hx.
  exact (createPath_keeps px Hkeep _ file x b w w' eq_refl Hrun Hx).
Qed.
End CreatePathMore.

Lemma createPath_of_a_file_path_witness :
  createPath RefPosix.posix "a/b/c.txt" [] = createPath RefPosix.posix "a/b/" [].
Proof.
  apply (createPath_of_a_file_path RefPosix.posix "a/b/c.txt" []);
    [discriminate | reflexivity | reflexivity].
Defined.

Lemma createPath_removes_nothing_witness :
  path_exists RefPosix.posix "x"
    [("x"%string, false); ("a"%string, true); ("a/b"%string, true)] = true.
Proof.
  apply (createPath_removes_nothing RefPosix.posix "a/b/" "x" true
           [("x"%string, false)]
           [("x"%string, false); ("a"%string, true); ("a/b"%string, true)]
           RefPosix_mkdir_keeps);
    reflexivity.
Defined.

Section DumpPathMore.
Variable isExcludedDirectory : string -> bool.
Variable StringTable_insert : string -> string.
Variable opendir : string -> option (list dirent).
Variable W : Type.
Variable px : Posix W.
Variable w : W.

(** X21.  A run of [dumpPath] on a non-empty path that is defined leaves
    the file vector as it is: it returns [false] where the path without
    its trailing slash does not open, and [true] where it opens and every
    entry is a directory that the walk does not enter (the depth is 0, or
    the entry is one of [.], [..] and the excluded names).  Any other
    entry makes the walk read [pathbuf], whose length is 0, and the run
    is undefined. *)
Theorem dumpPath_defined_runs_list_nothing (path : string)
    (vec : list FileInfo) (depth : Z) :
  path <> EmptyString ->
  dumpPath isExcludedDirectory StringTable_insert opendir px w path vec
    depth =
  match opendir (cut_trailing_slash path) with
  | None => Value (false, vec)
  | Some es =>
      if passes_entries isExcludedDirectory (Z.to_nat (U32 depth)) es
      then Value (true, vec) else Undefined
  end.
Proof.
  intro Hne. rewrite (dumpPath_eq _ _ _ _ _ _ path vec depth Hne).
  unfold recurseDumpPath. apply recurseDP_eq.
Qed.
End DumpPathMore.

Lemma dumpPath_defined_runs_list_nothing_witness :
  let opendir := fun p : string =>
    if String.eqb p "top"
    then Some [mkDirent "sub" DT_DIR; mkDirent ".." DT_DIR]
    else None in
  dumpPath (fun _ => false) (fun s => s) opendir RefPosix.posix [] "top/"
    [] 0 = Value (true, []) /\
  dumpPath (fun _ => false) (fun s => s) opendir RefPosix.posix [] "top/"
    [] (-1) = Undefined.
Proof.
  cbv zeta. split.
  - exact (dumpPath_defined_runs_list_nothing (fun _ => false) (fun s => s)
             (fun p : string =>
                if String.eqb p "top"
                then Some [mkDirent "sub" DT_DIR; mkDirent ".." DT_DIR]
                else None)
             RefPosix.world RefPosix.posix [] "top/" [] 0
             ltac:(discriminate)).
  - exact (dumpPath_defined_runs_list_nothing (fun _ => false) (fun s => s)
             (fun p : string =>
                if String.eqb p "top"
                then Some [mkDirent "sub" DT_DIR; mkDirent ".." DT_DIR]
                else None)
             RefPosix.world RefPosix.posix [] "top/" [] (-1)
             ltac:(discriminate)).
Defined.

Lemma last_char_append_slash (p : string) :
  last_char (p ++ "/") = Some slash.
Proof.
  induction p as [|a p IH]; [reflexivity|].
  simpl. destruct (p ++ "/")%string eqn:E; [|exact IH].
  destruct p; discriminate.
Qed.

Lemma truncate_append (p r : string) :
  truncate (String.length p) (p ++ r) = p.
Proof.
  induction p as [|a p IH]; simpl; [destruct r; reflexivity|].
  rewrite IH. reflexivity.
Qed.

Lemma cut_trailing_slash_append (p : string) :
  cut_trailing_slash (p ++ "/") = p.
Proof.
  unfold cut_trailing_slash, has_trailing_slash, dStrlen.
  rewrite last_char_append_slash. simpl Ascii.eqb. cbv iota.
  rewrite length_append. simpl String.length.
  replace (String.length p + 1 - 1)%nat with (String.length p) by lia.
  apply truncate_append.
Qed.

Section DumpPathSlash.
Variable isExcludedDirectory : string -> bool.
Variable StringTable_insert : string -> string.
Variable opendir : string -> option (list dirent).
Variable W : Type.
Variable px : Posix W.
Variable w : W.

(** X23.  One trailing slash on the root makes no difference to
    [dumpPath]: for a non-empty path that does not end in a slash, the
    walk of the path followed by a slash is the walk of the path, with
    the same full paths in the records. *)
Theorem dumpPath_ignores_one_trailing_slash (path : string)
    (vec : list FileInfo) (depth : Z) :
  path <> EmptyString ->
  has_trailing_slash path = false ->
  dumpPath isExcludedDirectory StringTable_insert opendir px w (path ++ "/")
    vec depth =
  dumpPath isExcludedDirectory StringTable_insert opendir px w path vec
    depth.
Proof.
  intros Hne Ht.
  rewrite (dumpPath_eq _ _ _ _ _ _ (path ++ "/") vec depth);
    [|destruct path; [congruence | discriminate]].
  rewrite (dumpPath_eq _ _ _ _ _ _ path vec depth Hne).
  rewrite cut_trailing_slash_append.
  unfold cut_trailing_slash at 1. rewrite Ht. reflexivity.
Qed.
End DumpPathSlash.

Lemma dumpPath_ignores_one_trailing_slash_witness :
  let opendir := fun p : string =>
    if String.eqb p "top" then Some [mkDirent ".." DT_DIR] else None in
  dumpPath (fun _ => false) (fun s => s) opendir RefPosix.posix [] "top/"
    [] 3 =
  dumpPath (fun _ => false) (fun s => s) opendir RefPosix.posix [] "top"
    [] 3.
Proof.
  cbv zeta.
  apply (dumpPath_ignores_one_trailing_slash (fun _ => false) (fun s => s)
           (fun p : string =>
              if String.eqb p "top" then Some [mkDirent ".." DT_DIR]
              else None)
           RefPosix.world RefPosix.posix [] "top" [] 3);
    [discriminate | reflexivity].
Defined.

Section DumpPathFilter.
Variable isExcludedDirectory : string -> bool.
Variable StringTable_insert : string -> string.
Variable opendir : string -> option (list dirent).
Variable W : Type.
Variable px : Posix W.
Variable w : W.

Lemma passes_entries_walked (depth : nat) (es : list dirent) :
  passes_entries isExcludedDirectory depth
    (filter (walked_entry isExcludedDirectory) es) =
  passes_entries isExcludedDirectory depth es.
Proof.
  induction es as [|e es IH]; [reflexivity|].
  cbn [filter].
  replace (walked_entry isExcludedDirectory e)
    with (negb (d_type e =? DT_DIR)
          || isGoodDirectory isExcludedDirectory e) by reflexivity.
  cbn [passes_entries].
  destruct (d_type e =? DT_DIR) eqn:Et; cbn [negb orb andb].
  - destruct (isGoodDirectory isExcludedDirectory e) eqn:Hg.
    + cbn [passes_entries]. rewrite Et, Hg, IH. reflexivity.
    + cbn [negb]. rewrite orb_true_r. exact IH.
  - cbn [passes_entries]. rewrite Et. reflexivity.
Qed.

(** X26.  [recurseDumpPath] never enters [.], [..] or an excluded
    directory: the walk is the same on a file system from whose
    directories these entries are taken away, at every depth. *)
Theorem recurseDumpPath_skips_bad_directories (depth : nat) :
  forall (curPath : string) (vec : list FileInfo),
    recurseDumpPath_depth isExcludedDirectory StringTable_insert
      (fun p => option_map (filter (walked_entry isExcludedDirectory))
                  (opendir p))
      px w depth curPath vec =
    recurseDumpPath_depth isExcludedDirectory StringTable_insert opendir
      px w depth curPath vec.
Proof.
  intros curPath vec. rewrite !recurseDP_eq.
  destruct (opendir curPath) as [es|]; [|reflexivity].
  cbn [option_map]. rewrite passes_entries_walked. reflexivity.
Qed.
End DumpPathFilter.
